(** * xdsc: navigation and caching core of the discuss client

    A shallow embedding of [DiscussWrapper] and of the two [Xdsc] methods
    that scan the registry and extend the transaction window
    (src/xdsc.py), with the properties of the navigation core proved
    over it.

    Python objects that are mutated in place (the wrapper's two caches,
    the registry, the transaction list store) are threaded as explicit
    state; exceptions are an error result.  Python integers are
    unbounded, so transaction numbers are [Z]. *)

From Stdlib Require Import ZArith List Lia Bool.
From stdpp Require Import base option list gmap strings fin_maps.

Open Scope Z_scope.

(** ** Data model *)

(** A meeting's identity: [(host, path)], the key of the registry and of
    the meeting cache. *)
Abbreviation Location := (string * string)%type.

(** [RCFile.lookup] is called with a name ([get_meeting] from a long
    name, [_last_read_transaction]) and with a registry key itself
    ([check_meetings] iterates the keys and passes each to
    [get_meeting]). *)
Abbreviation MeetingKey := (string + string * string)%type.

(** Error codes of [discuss.constants] that the source tests for.  Their
    numeric values are not part of xdsc; only their identity matters. *)
Inductive Code : Type :=
| NO_SUCH_TRN
| DELETED_TRN
| NO_SUCH_MTG
| OTHER_CODE (n : Z).

(** What a call into the discuss library can raise: the three classes
    the source names ([discuss.DiscussError] with a code,
    [discuss.rpc.ProtocolError], [socket.timeout]), and a [socket.error]
    that is not a timeout (connection refused, host not found: the
    specification's [ConnectError]), which no [except] clause of the
    source names. *)
Inductive RemoteError : Type :=
| DiscussError (code : Code)
| ProtocolError
| socket_timeout
| socket_error.

(** Python exceptions reachable from the embedded methods. *)
Inductive exn : Type :=
| Remote (e : RemoteError)
| ValueError
| AttributeError (attr : string)
| KeyError
| TypeError
| IndexError
| RegistryError
| PersistError.

#[global] Instance Code_eq_dec : EqDecision Code.
Proof. solve_decision. Defined.
#[global] Instance RemoteError_eq_dec : EqDecision RemoteError.
Proof. solve_decision. Defined.
#[global] Instance exn_eq_dec : EqDecision exn.
Proof. solve_decision. Defined.

Module Transaction.
(** The numeric fields of a [discuss] transaction object. *)
Record t : Type := mk {
  current : Z;
  prev : Z;
  next : Z;
  pref : Z;
  nref : Z;
  fref : Z;
  lref : Z
}.
End Transaction.

Module Info.
(** What [Meeting.load_info] fills in. *)
Record t : Type := mk {
  short_name : string;
  long_name : string;
  lowest : Z;
  highest : Z;
  first : Z;
  last : Z
}.
End Info.

(** A [discuss.Client] object is identified by the order of its
    construction: a handle is a [nat]. *)

Module Client.
Record t : Type := mk {
  server : string;
  timeout : option Z
}.
End Client.

Module Meeting.
(** A [discuss.Meeting] after [load_info].  [id] is the key under which
    the registry holds the meeting (the specification's [location]
    field); [client] is the connection it was constructed with. *)
Record t : Type := mk {
  client : nat;
  id : Location;
  short_name : string;
  long_name : string;
  lowest : Z;
  highest : Z;
  first : Z;
  last : Z
}.

Definition loaded (c : nat) (loc : Location) (i : Info.t) : t :=
  mk c loc (Info.short_name i) (Info.long_name i)
     (Info.lowest i) (Info.highest i) (Info.first i) (Info.last i).
End Meeting.

Module Entry.
(** One entry of the meetings file, with the keys the source reads. *)
Record t : Type := mk {
  names : list string;
  displayname : string;
  hostname : string;
  last_transaction : Z;
  deleted : bool
}.

Definition set_last_transaction (n : Z) (e : t) : t :=
  mk (names e) (displayname e) (hostname e) n (deleted e).

Definition set_deleted (b : bool) (e : t) : t :=
  mk (names e) (displayname e) (hostname e) (last_transaction e) b.

(** [entry['names'][0] = x] on a non-empty list. *)
Definition set_first_name (x : string) (e : t) : t :=
  mk (x :: tail (names e)) (displayname e) (hostname e)
     (last_transaction e) (deleted e).
End Entry.

(** The registry object [discuss.RCFile]: the entries by location, the
    index that [lookup] consults, the copy last written to disk, and the
    unsaved-changes mark. *)
Record RCFile : Type := mkRCFile {
  entries : gmap Location Entry.t;
  cache : gmap MeetingKey Location;
  saved : gmap Location Entry.t;
  dirty : bool
}.

(** A [discuss.Meeting(cli, path)] before [load_info]: what
    [add_meeting] hands to [RCFile.add]. *)
Record MeetingRef : Type := mkMeetingRef {
  ref_client : nat;
  ref_location : Location
}.

(** The discuss package as xdsc sees it.  The answers of the remote
    service are fixed functions of the request; [rcfile_add] and
    [rcfile_index] are the two registry routines whose effect neither
    the source nor the specification determines ([RCFile.add] of a
    meeting object, and the index that [RCFile.recache] rebuilds);
    [rcfile_save_fails] is the file system's answer to [RCFile.save]:
    whether writing these entries to the meetings file fails. *)
Record Discuss : Type := mkDiscuss {
  connect : string → option RemoteError;
  check_update : Location → Z → RemoteError + bool;
  load_info : Location → RemoteError + Info.t;
  fetch : Location → Z → RemoteError + Transaction.t;
  rcfile_add : MeetingRef → RCFile → exn + RCFile;
  rcfile_index : gmap Location Entry.t → gmap MeetingKey Location;
  rcfile_save_fails : gmap Location Entry.t → bool
}.

(** Requests sent to the service. *)
Inductive Rpc : Type :=
| RpcConnect (host : string)
| RpcCheckUpdate (loc : Location) (n : Z)
| RpcLoadInfo (loc : Location)
| RpcFetch (loc : Location) (n : Z).

(** Lines written to the [xdsc.discuss] logger. *)
Inductive LogMsg : Type :=
| LogGetMeeting (name : MeetingKey)
| LogRetrieving (short_name : string) (n : Z)
| LogTrying (n : Z) (long_name : string)
| LogError (loc : Location) (e : RemoteError)
| LogRename (old new : string).

(** The two warnings of [check_meetings] shown through [msg_dialog]. *)
Inductive Dialog : Type :=
| UnableToAttend (displayname hostname : string) (e : RemoteError)
| NoLongerExists (displayname hostname : string) (e : RemoteError).

(** The state a [DiscussWrapper] works on: its own attributes
    ([meetingcache], [connectioncache], [timeout], [rcfile]; [meetings]
    is an alias of [rcfile.entries], see [meetings] below), the client
    objects constructed so far, and what was sent, logged and shown. *)
Record State : Type := mkState {
  meetingcache : gmap Location Meeting.t;
  connectioncache : gmap string nat;
  timeout : Z;
  rcfile : RCFile;
  clients : list Client.t;
  rpc_log : list Rpc;
  dslog : list LogMsg;
  dialogs : list Dialog
}.

Definition with_meetingcache (f : gmap Location Meeting.t → gmap Location Meeting.t)
    (s : State) : State :=
  mkState (f (meetingcache s)) (connectioncache s) (timeout s) (rcfile s)
          (clients s) (rpc_log s) (dslog s) (dialogs s).

Definition with_connectioncache (f : gmap string nat → gmap string nat)
    (s : State) : State :=
  mkState (meetingcache s) (f (connectioncache s)) (timeout s) (rcfile s)
          (clients s) (rpc_log s) (dslog s) (dialogs s).

Definition with_rcfile (f : RCFile → RCFile) (s : State) : State :=
  mkState (meetingcache s) (connectioncache s) (timeout s) (f (rcfile s))
          (clients s) (rpc_log s) (dslog s) (dialogs s).

Definition with_clients (f : list Client.t → list Client.t) (s : State) : State :=
  mkState (meetingcache s) (connectioncache s) (timeout s) (rcfile s)
          (f (clients s)) (rpc_log s) (dslog s) (dialogs s).

Definition with_rpc_log (f : list Rpc → list Rpc) (s : State) : State :=
  mkState (meetingcache s) (connectioncache s) (timeout s) (rcfile s)
          (clients s) (f (rpc_log s)) (dslog s) (dialogs s).

Definition with_dslog (f : list LogMsg → list LogMsg) (s : State) : State :=
  mkState (meetingcache s) (connectioncache s) (timeout s) (rcfile s)
          (clients s) (rpc_log s) (f (dslog s)) (dialogs s).

Definition with_dialogs (f : list Dialog → list Dialog) (s : State) : State :=
  mkState (meetingcache s) (connectioncache s) (timeout s) (rcfile s)
          (clients s) (rpc_log s) (dslog s) (f (dialogs s)).

(** [self.meetings = self.rcfile.entries]: the same dictionary object. *)
Definition meetings (s : State) : gmap Location Entry.t := entries (rcfile s).

(** ** Exceptions and state *)

Inductive Result (A : Type) : Type :=
| Ok (a : A)
| Raise (e : exn).
Arguments Ok {A} a.
Arguments Raise {A} e.

Definition M (A : Type) : Type := State → Result A * State.

Definition ret {A} (a : A) : M A := fun s => (Ok a, s).

Definition raise {A} (e : exn) : M A := fun s => (Raise e, s).

Definition bind {A B} (m : M A) (k : A → M B) : M B :=
  fun s =>
    match m s with
    | (Ok a, s') => k a s'
    | (Raise e, s') => (Raise e, s')
    end.

Notation "x <- m ;; k" := (bind m (fun x => k))
  (at level 100, m at next level, right associativity).
Notation "m ;;; k" := (bind m (fun _ => k))
  (at level 100, right associativity).

Definition modify (f : State → State) : M unit := fun s => (Ok tt, f s).

Definition debug (msg : LogMsg) : M unit :=
  modify (with_dslog (fun l => l ++ [msg])).

Definition msg_dialog (d : Dialog) : M unit :=
  modify (with_dialogs (fun l => l ++ [d])).

(** A request to the service: it is recorded, and its answer is the
    value or the exception. *)
Definition rpc {A} (call : Rpc) (answer : RemoteError + A) : M A :=
  fun s =>
    let s' := with_rpc_log (fun l => l ++ [call]) s in
    match answer with
    | inr a => (Ok a, s')
    | inl e => (Raise (Remote e), s')
    end.

(** Python's [xrange(start, stop, step)]; the source calls it with step
    1 or -1 only (step 0 is a [ValueError] there, and so is an argument
    that does not fit a C long, far above any transaction number). *)
Definition xrange (start stop step : Z) : list Z :=
  if 0 <? step then
    map (fun i => start + Z.of_nat i * step)
        (seq 0 (Z.to_nat ((stop - start + step - 1) / step)))
  else if step <? 0 then
    map (fun i => start + Z.of_nat i * step)
        (seq 0 (Z.to_nat ((start - stop - step - 1) / (- step))))
  else [].

(** ** The registry *)

(** Modelled from the spec: [RCFile.lookup], which "resolves a display
    name or short name to a MeetingLocation; returns not found (no
    match) distinctly from errors".  The library's own code is not part
    of xdsc.  (The name [lookup] itself belongs to the map library.) *)
Definition lookup_name (rc : RCFile) (name : MeetingKey) : option Location :=
  cache rc !! name.

(** Modelled from the spec: [RCFile.touch], which "sets last_transaction
    unconditionally" for the location "and marks the in-memory state
    dirty; does not persist immediately". *)
Definition touch (loc : Location) (n : Z) (rc : RCFile) : RCFile :=
  mkRCFile (alter (Entry.set_last_transaction n) loc (entries rc))
           (cache rc) (saved rc) true.

Section Wrapper.

Variable D : Discuss.

(** Modelled from the spec: [RCFile.save], which "writes to a temporary
    location and atomically replaces the persisted file on success; on
    failure, reports PersistError and leaves the previous persisted
    state untouched".  The library's own code is not part of xdsc. *)
Definition save (rc : RCFile) : exn + RCFile :=
  if rcfile_save_fails D (entries rc) then inl PersistError
  else inr (mkRCFile (entries rc) (cache rc) (entries rc) false).

(** [self.rcfile.save()] on the wrapper's registry: a failed write
    raises and leaves the registry object as it is. *)
Definition rcfile_save : M unit :=
  fun s =>
    match save (rcfile s) with
    | inl e => (Raise e, s)
    | inr rc => (Ok tt, with_rcfile (fun _ => rc) s)
    end.

(** [RCFile.recache]: the lookup index is rebuilt from the entries. *)
Definition recache (rc : RCFile) : RCFile :=
  mkRCFile (entries rc) (rcfile_index D (entries rc)) (saved rc) (dirty rc).

(** ** DiscussWrapper *)

(** [discuss.Client(host, timeout=...)]: connects, and on success is a
    new object. *)
Definition new_Client (host : string) (tmo : option Z) : M nat :=
  fun s =>
    let s' := with_rpc_log (fun l => l ++ [RpcConnect host]) s in
    match connect D host with
    | Some e => (Raise (Remote e), s')
    | None =>
        (Ok (length (clients s')),
         with_clients (fun l => l ++ [Client.mk host tmo]) s')
    end.

Definition _get_connection (host : string) : M nat :=
  fun s =>
    match connectioncache s !! host with
    | Some conn => (Ok conn, s)
    | None =>
        (conn <- new_Client host (Some (timeout s)) ;;
         modify (with_connectioncache (insert host conn)) ;;;
         fun s' =>
           match connectioncache s' !! host with
           | Some c => (Ok c, s')
           | None => (Raise KeyError, s')
           end) s
    end.

(** The probe of [get_meeting]: [mtg.check_update(0)] inside
    [try ... except DiscussError as e: if e.code != NO_SUCH_TRN: raise]. *)
Definition probe (loc : Location) : M unit :=
  fun s =>
    match rpc (RpcCheckUpdate loc 0) (check_update D loc 0) s with
    | (Ok _, s') => (Ok tt, s')
    | (Raise (Remote (DiscussError code)), s') =>
        if decide (code = NO_SUCH_TRN) then (Ok tt, s')
        else (Raise (Remote (DiscussError code)), s')
    | (Raise e, s') => (Raise e, s')
    end.

Definition get_meeting (name : MeetingKey) : M Meeting.t :=
  debug (LogGetMeeting name) ;;;
  fun s =>
    match lookup_name (rcfile s) name with
    | None =>
        (* [None not in self.meetingcache], then [location[0]] *)
        (Raise TypeError, s)
    | Some location =>
        match meetingcache s !! location with
        | Some mtg => (Ok mtg, s)
        | None =>
            (conn <- _get_connection (fst location) ;;
             probe location ;;;
             info <- rpc (RpcLoadInfo location) (load_info D location) ;;
             let mtg := Meeting.loaded conn location info in
             modify (with_meetingcache (insert location mtg)) ;;;
             ret mtg) s
        end
    end.

Definition add_meeting (host path : string) : M unit :=
  cli <- new_Client host None ;;
  let mtg := mkMeetingRef cli (host, path) in
  fun s =>
    match rcfile_add D mtg (rcfile s) with
    | inl e => (Raise e, s)
    | inr rc => rcfile_save (with_rcfile (fun _ => rc) s)
    end.

Definition _last_read_transaction (meeting_obj : Meeting.t) : M Z :=
  fun s =>
    match lookup_name (rcfile s) (inl (Meeting.long_name meeting_obj)) with
    | None => (Raise KeyError, s)
    | Some lookup =>
        match entries (rcfile s) !! lookup with
        | None => (Raise KeyError, s)
        | Some entry => (Ok (Entry.last_transaction entry), s)
        end
    end.

Definition touch_meeting (meeting_obj : Meeting.t) (trn_obj : Transaction.t)
    : M unit :=
  modify (with_rcfile
            (touch (Meeting.id meeting_obj) (Transaction.current trn_obj))).

(** [meeting_obj.get_transaction(n)] of the library: one request. *)
Definition Meeting_get_transaction (meeting_obj : Meeting.t) (n : Z)
    : M Transaction.t :=
  rpc (RpcFetch (Meeting.id meeting_obj) n) (fetch D (Meeting.id meeting_obj) n).

Definition get_transaction (meeting_obj : Meeting.t) (trn_num : Z)
    (updateLast : bool) : M Transaction.t :=
  debug (LogRetrieving (Meeting.short_name meeting_obj) trn_num) ;;;
  if (trn_num <? Meeting.lowest meeting_obj)
     || (Meeting.highest meeting_obj <? trn_num)
  then raise ValueError
  else
    trn_obj <- Meeting_get_transaction meeting_obj trn_num ;;
    (if updateLast then touch_meeting meeting_obj trn_obj else ret tt) ;;;
    ret trn_obj.

(** [err.code in (DELETED_TRN, NO_SUCH_TRN)] *)
Definition skip_code (c : Code) : bool :=
  match c with
  | DELETED_TRN | NO_SUCH_TRN => true
  | _ => false
  end.

(** The [for t in xrange(...)] loop of [find_next_valid_transaction];
    running off the end of the loop is Python's implicit [return None]. *)
Fixpoint find_loop (meeting_obj : Meeting.t) (ts : list Z)
    : M (option Transaction.t) :=
  match ts with
  | [] => ret None
  | t :: ts' =>
      debug (LogTrying t (Meeting.long_name meeting_obj)) ;;;
      fun s =>
        match get_transaction meeting_obj t true s with
        | (Ok trn, s') => (Ok (Some trn), s')
        | (Raise (Remote (DiscussError code)), s') =>
            if skip_code code then find_loop meeting_obj ts' s'
            else (Raise (Remote (DiscussError code)), s')
        | (Raise e, s') => (Raise e, s')
        end
  end.

(** [self.go_to_transaction(...)] inside [DiscussWrapper]: the class
    defines no such attribute (nor does any other class of the file), so
    the attribute lookup itself raises. *)
Definition go_to_transaction (n : Z) : M unit :=
  raise (AttributeError "go_to_transaction").

Definition find_next_valid_transaction (meeting_obj : Meeting.t)
    (backwards : bool) : M (option Transaction.t) :=
  start_from <- _last_read_transaction meeting_obj ;;
  (if negb backwards && (Meeting.last meeting_obj <=? start_from)
   then go_to_transaction (Meeting.last meeting_obj) else ret tt) ;;;
  (if backwards && (start_from <=? Meeting.first meeting_obj)
   then go_to_transaction (Meeting.first meeting_obj) else ret tt) ;;;
  let end_ := if backwards then Meeting.first meeting_obj
              else Meeting.last meeting_obj in
  let increment := if backwards then -1 else 1 in
  find_loop meeting_obj
            (xrange (start_from + increment) (end_ + increment) increment).

(** ** Xdsc *)

(** [self.discuss.meetings[m]]: a missing key raises. *)
Definition entry_of (m : Location) : M Entry.t :=
  fun s =>
    match meetings s !! m with
    | Some entry => (Ok entry, s)
    | None => (Raise KeyError, s)
    end.

(** [self.discuss.meetings[m][...] = ...]: the entry is changed in the
    registry's own dictionary. *)
Definition set_entry (m : Location) (f : Entry.t → Entry.t) : M unit :=
  modify (with_rcfile (fun rc =>
    mkRCFile (alter f m (entries rc)) (cache rc) (saved rc) (dirty rc))).

(** The statements after the [try] of [check_meetings], reached when
    [get_meeting] returned. *)
Definition check_long_name (m : Location) (mtg : Meeting.t) (update : bool)
    : M bool :=
  entry <- entry_of m ;;
  match Entry.names entry with
  | [] => raise IndexError
  | name0 :: _ =>
      if decide (Meeting.long_name mtg = name0) then ret update
      else
        debug (LogRename name0 (Meeting.long_name mtg)) ;;;
        set_entry m (Entry.set_first_name (Meeting.long_name mtg)) ;;;
        ret true
  end.

(** One iteration of the loop of [check_meetings]; the result is the
    [update] flag after it. *)
Definition check_meeting (m : Location) (update : bool) : M bool :=
  entry <- entry_of m ;;
  if Entry.deleted entry then ret update
  else fun s =>
    match get_meeting (inr m) s with
    | (Ok mtg, s') => check_long_name m mtg update s'
    | (Raise (Remote socket_timeout), s') =>
        (entry <- entry_of m ;;
         msg_dialog (UnableToAttend (Entry.displayname entry)
                                    (Entry.hostname entry) socket_timeout) ;;;
         set_entry m (Entry.set_deleted true) ;;;
         ret true) s'
    | (Raise (Remote (DiscussError code)), s') =>
        (debug (LogError m (DiscussError code)) ;;;
         if decide (code = NO_SUCH_MTG) then
           entry <- entry_of m ;;
           msg_dialog (NoLongerExists (Entry.displayname entry)
                                      (Entry.hostname entry)
                                      (DiscussError code)) ;;;
           set_entry m (Entry.set_deleted true) ;;;
           ret true
         else ret update) s'
    | (Raise (Remote ProtocolError), s') =>
        (debug (LogError m ProtocolError) ;;; ret update) s'
    | (Raise e, s') => (Raise e, s')
    end.

Fixpoint check_meetings_loop (ms : list Location) (update : bool) : M bool :=
  match ms with
  | [] => ret update
  | m :: ms' =>
      update' <- check_meeting m update ;;
      check_meetings_loop ms' update'
  end.

(** [for m in self.discuss.meetings]: the keys of the dictionary, which
    the loop body never adds to nor removes from. *)
Definition check_meetings : M unit :=
  fun s =>
    (update <- check_meetings_loop (map_to_list (meetings s)).*1 false ;;
     if update then
       rcfile_save ;;;
       modify (with_rcfile recache)
     else ret tt) s.

(** Lines written to the [xdsc.ui] logger by [load_more_transactions]. *)
Inductive UiMsg : Type :=
| UiLoading (num : Z)
| UiHitStart
| UiPrepending (n : Z).

(** The attributes of [Xdsc] that [load_more_transactions] uses.  The
    rows of [trans_liststore] are kept oldest first; each row's second
    column is the transaction (the first, its formatted line, is
    display only). *)
Record Xdsc : Type := mkXdsc {
  discuss : State;
  current_meeting : option Meeting.t;
  trans_liststore : list Transaction.t;
  uilog : list UiMsg
}.

Definition ui_debug (msg : UiMsg) (x : Xdsc) : Xdsc :=
  mkXdsc (discuss x) (current_meeting x) (trans_liststore x) (uilog x ++ [msg]).

(** The [for _ in xrange(0, num)] loop; [trn] is the loop's local. *)
Fixpoint load_more_loop (range : list Z) (trn : Transaction.t) (x : Xdsc)
    : Result unit * Xdsc :=
  match range with
  | [] => (Ok tt, x)
  | _ :: range' =>
      if decide (Transaction.prev trn = 0) then (Ok tt, ui_debug UiHitStart x)
      else
        match current_meeting x with
        | None => (Raise (AttributeError "get_transaction"), x)
        | Some mtg =>
            match Meeting_get_transaction mtg (Transaction.prev trn) (discuss x) with
            | (Raise e, d) =>
                (Raise e, mkXdsc d (current_meeting x) (trans_liststore x) (uilog x))
            | (Ok trn', d) =>
                load_more_loop range' trn'
                  (ui_debug (UiPrepending (Transaction.current trn'))
                     (mkXdsc d (current_meeting x)
                             (trn' :: trans_liststore x) (uilog x)))
            end
        end
  end.

(** [get_iter_first()] of an empty store is [None], which [get_value]
    rejects. *)
Definition load_more_transactions (num : Z) (x : Xdsc) : Result unit * Xdsc :=
  match trans_liststore x with
  | [] => (Raise TypeError, x)
  | trn :: _ => load_more_loop (xrange 0 num 1) trn (ui_debug (UiLoading num) x)
  end.

End Wrapper.

(** ** A sample service and registry

    One meeting ["long"] at [("host", "/path")] whose numbers 1 to 20
    were assigned, of which 5 to 20 are the valid range; 1 to 4 and 10
    to 12 are deleted.  A second registered meeting lives on a host that
    does not answer, a third no longer exists. *)
Module Sample.

Definition trn (n : Z) : Transaction.t :=
  Transaction.mk n
    (if n =? 5 then 0 else if n =? 13 then 9 else n - 1)
    (if n =? 20 then 0 else if n =? 9 then 13 else n + 1)
    0 0 n n.

Definition loc0 : Location := ("host"%string, "/path"%string).
Definition loc1 : Location := ("silent"%string, "/away"%string).
Definition loc2 : Location := ("host"%string, "/gone"%string).

Definition info0 : Info.t := Info.mk "short" "long" 1 20 5 20.

Definition service : Discuss :=
  mkDiscuss
    (fun host => if decide (host = "silent"%string)
                 then Some socket_timeout else None)
    (fun loc n =>
       if decide (loc = loc2) then inl (DiscussError NO_SUCH_MTG)
       else if n =? 0 then inl (DiscussError NO_SUCH_TRN)
       else inr (n <? 20))
    (fun loc =>
       if decide (loc = loc0) then inr info0
       else inl (DiscussError NO_SUCH_MTG))
    (fun loc n =>
       if (n <? 1) || (20 <? n) then inl (DiscussError NO_SUCH_TRN)
       else if (n <? 5) || ((10 <=? n) && (n <=? 12))
            then inl (DiscussError DELETED_TRN)
            else inr (trn n))
    (fun ref rc =>
       match entries rc !! ref_location ref with
       | Some _ => inl RegistryError
       | None =>
           inr (mkRCFile
                  (<[ref_location ref :=
                       Entry.mk [] "" (fst (ref_location ref)) 0 false]>
                     (entries rc))
                  (cache rc) (saved rc) (dirty rc))
       end)
    (fun es =>
       list_to_map
         (flat_map (fun '(loc, e) =>
                      (inr loc, loc)
                        :: map (fun n => (inl n, loc)) (Entry.names e))
                   (map_to_list es)))
    (fun _ => false).

Definition entry0 (cursor : Z) : Entry.t :=
  Entry.mk ["long"%string; "short"%string] "long" "host" cursor false.
Definition entry1 : Entry.t :=
  Entry.mk ["far"%string] "far" "silent" 0 false.
Definition entry2 : Entry.t :=
  Entry.mk ["old"%string] "old" "host" 7 false.

(** A registry holding only the first meeting, read up to [cursor]. *)
Definition registry (cursor : Z) : RCFile :=
  mkRCFile {[ loc0 := entry0 cursor ]}
           {[ inl "long"%string := loc0; inl "short"%string := loc0;
              inr loc0 := loc0 ]}
           {[ loc0 := entry0 cursor ]} false.

(** A registry holding the three meetings. *)
Definition registry3 : RCFile :=
  mkRCFile {[ loc0 := entry0 9; loc1 := entry1; loc2 := entry2 ]}
           {[ inl "long"%string := loc0; inl "short"%string := loc0;
              inl "far"%string := loc1; inl "old"%string := loc2;
              inr loc0 := loc0; inr loc1 := loc1; inr loc2 := loc2 ]}
           {[ loc0 := entry0 9; loc1 := entry1; loc2 := entry2 ]} false.

(** A wrapper just constructed: both caches empty. *)
Definition fresh (rc : RCFile) : State := mkState ∅ ∅ 3 rc [] [] [] [].

Definition meeting0 : Meeting.t := Meeting.loaded 0%nat loc0 info0.

End Sample.

(** ** Properties *)

(** The numbers a log shows as tried by [find_next_valid_transaction]. *)
Definition tried (l : list LogMsg) : list Z :=
  omap (fun msg => match msg with LogTrying n _ => Some n | _ => None end) l.

(** The registry resolves the meeting's long name to the meeting's own
    entry. *)
Definition registered (rc : RCFile) (m : Meeting.t) : Prop :=
  lookup_name rc (inl (Meeting.long_name m)) = Some (Meeting.id m)
  ∧ is_Some (entries rc !! Meeting.id m).

(** The stored cursor of a registered meeting. *)
Definition cursor_is (rc : RCFile) (m : Meeting.t) (c : Z) : Prop :=
  lookup_name rc (inl (Meeting.long_name m)) = Some (Meeting.id m)
  ∧ Entry.last_transaction <$> entries rc !! Meeting.id m = Some c.

(** [t] is a number ever assigned in the meeting: the range
    [get_transaction] accepts. *)
Definition in_numbering (m : Meeting.t) (t : Z) : Prop :=
  Meeting.lowest m ≤ t ≤ Meeting.highest m.

(** Fetching [t] fails with one of the two codes the walk skips. *)
Definition skips (D : Discuss) (m : Meeting.t) (t : Z) : Prop :=
  ∃ c, fetch D (Meeting.id m) t = inl (DiscussError c) ∧ skip_code c = true.

(** An error of a fetch that the walk does not skip. *)
Definition fatal (e : RemoteError) : Prop :=
  ∀ c, e = DiscussError c → skip_code c = false.

Section Vocabulary.

Variable D : Discuss.

(** The last step of [get_meeting]: load the metadata over connection
    [conn] and store the meeting. *)
Definition load_and_cache (conn : nat) (loc : Location)
    (s : State) : Result Meeting.t * State :=
  let s' := with_rpc_log (fun l => l ++ [RpcLoadInfo loc]) s in
  match load_info D loc with
  | inl e => (Raise (Remote e), s')
  | inr info =>
      (Ok (Meeting.loaded conn loc info),
       with_meetingcache (insert loc (Meeting.loaded conn loc info)) s')
  end.

(** [fetched] lists, in the order they were fetched, transactions
    obtained by following the [prev] pointer of [oldest] and then of
    each transaction fetched in turn. *)
Fixpoint followed (mtg : Meeting.t) (oldest : Transaction.t)
    (fetched : list Transaction.t) : Prop :=
  match fetched with
  | [] => True
  | trn :: fetched' =>
      Transaction.prev oldest ≠ 0
      ∧ fetch D (Meeting.id mtg) (Transaction.prev oldest) = inr trn
      ∧ followed mtg trn fetched'
  end.

(** What attending meeting [m] over a new connection comes to: the
    answers of the service to the connection, the probe and the load. *)
Definition attend (m : Location) : RemoteError + Info.t :=
  match connect D (fst m) with
  | Some e => inl e
  | None =>
      match check_update D m 0 with
      | inl e =>
          if decide (e = DiscussError NO_SUCH_TRN) then load_info D m else inl e
      | inr _ => load_info D m
      end
  end.

(** The two failures after which [check_meetings] flags the entry. *)
Definition quarantined (m : Location) : bool :=
  match attend m with
  | inl socket_timeout => true
  | inl (DiscussError code) => bool_decide (code = NO_SUCH_MTG)
  | _ => false
  end.

(** The entry of [m] after its turn in the scan. *)
Definition checked (m : Location) (e : Entry.t) : Entry.t :=
  if Entry.deleted e then e
  else
    match attend m with
    | inl _ => if quarantined m then Entry.set_deleted true e else e
    | inr info =>
        match Entry.names e with
        | name0 :: _ =>
            if decide (Info.long_name info = name0) then e
            else Entry.set_first_name (Info.long_name info) e
        | [] => e
        end
    end.

(** The warning shown for [m] in its turn, if any. *)
Definition report (m : Location) (e : Entry.t) : list Dialog :=
  if Entry.deleted e then []
  else
    match attend m with
    | inl socket_timeout =>
        [UnableToAttend (Entry.displayname e) (Entry.hostname e) socket_timeout]
    | inl (DiscussError code) =>
        if decide (code = NO_SUCH_MTG)
        then [NoLongerExists (Entry.displayname e) (Entry.hostname e)
                             (DiscussError code)]
        else []
    | _ => []
    end.

(** The caches hold only what the service answered: a cached connection
    is to a host that accepts connections, a cached meeting was attended
    and has the long name the service gives. *)
Definition coherent (s : State) : Prop :=
  (∀ host conn, connectioncache s !! host = Some conn → connect D host = None)
  ∧ (∀ loc mtg, meetingcache s !! loc = Some mtg →
       ∃ info, attend loc = inr info
               ∧ Meeting.long_name mtg = Info.long_name info).

(** Every registry key resolves to itself, and every entry has a name. *)
Definition registry_ok (rc : RCFile) : Prop :=
  ∀ m e, entries rc !! m = Some e →
    lookup_name rc (inr m) = Some m ∧ Entry.names e ≠ [].

End Vocabulary.

(** ** More of DiscussWrapper *)

Section WrapperMore.

Variable D : Discuss.

(** [del self.rcfile.entries[mtg]] raises for a key that is not there;
    the [ValueError] carries a message that is of no concern here. *)
Definition delete_meeting (meeting : MeetingKey) : M unit :=
  fun s =>
    match lookup_name (rcfile s) meeting with
    | None => (Raise ValueError, s)
    | Some mtg =>
        match entries (rcfile s) !! mtg with
        | None => (Raise KeyError, s)
        | Some _ =>
            (modify (with_rcfile (fun rc =>
               mkRCFile (delete mtg (entries rc)) (cache rc)
                        (saved rc) (dirty rc))) ;;;
             rcfile_save D ;;;
             modify (with_rcfile (recache D))) s
        end
    end.

(** [meeting_obj.check_update(n)] of the library: one request. *)
Definition Meeting_check_update (meeting_obj : Meeting.t) (n : Z) : M bool :=
  rpc (RpcCheckUpdate (Meeting.id meeting_obj) n)
      (check_update D (Meeting.id meeting_obj) n).

Definition meeting_has_changed (meeting_obj : Meeting.t) : M bool :=
  last_trans <- _last_read_transaction meeting_obj ;;
  Meeting_check_update meeting_obj last_trans.

End WrapperMore.

(** ** More of Xdsc *)

(** What [update_status_label] writes into the status label. *)
Inductive Status : Type :=
| Retrieving (remaining : Z)
| Reading (long_name : string) (first last : Z) (trn : option Z).

(** The keyword arguments with which the file calls
    [update_status_label]: [remaining=...], [mtg=...], and
    [mtg=..., trn=...]; the values may be [None]. *)
Inductive StatusArgs : Type :=
| kw_remaining (remaining : Z)
| kw_mtg (mtg : option Meeting.t)
| kw_mtg_trn (mtg : option Meeting.t) (trn : option Transaction.t).

(** The attributes of [Xdsc] beyond those of the record [Xdsc] above:
    the transaction shown, the rows of [meeting_liststore] (markup and
    meeting), and the text of the status label ([None] before the first
    call of [update_status_label]). *)
Record Gui : Type := mkGui {
  xdsc : Xdsc;
  current_transaction : option Transaction.t;
  meeting_liststore : list (string * Meeting.t);
  status_label : option Status
}.

Definition with_xdsc (f : Xdsc → Xdsc) (g : Gui) : Gui :=
  mkGui (f (xdsc g)) (current_transaction g) (meeting_liststore g)
        (status_label g).

Definition with_discuss (f : State → State) (x : Xdsc) : Xdsc :=
  mkXdsc (f (discuss x)) (current_meeting x) (trans_liststore x) (uilog x).

Definition set_status (st : Status) (g : Gui) : Gui :=
  mkGui (xdsc g) (current_transaction g) (meeting_liststore g) (Some st).

(** A call of the wrapper from [Xdsc]: it works on [self.discuss]. *)
Definition in_discuss {A} (m : M A) (g : Gui) : Result A * Gui :=
  match m (discuss (xdsc g)) with
  | (r, d) => (r, with_xdsc (with_discuss (fun _ => d)) g)
  end.

(** [text.format] with the keyword arguments reads [mtg.long_name],
    [mtg.first], [mtg.last] and [trn.current]: of [None] that is an
    [AttributeError]. *)
Definition update_status_label (kwargs : StatusArgs) (g : Gui)
    : Result unit * Gui :=
  match kwargs with
  | kw_remaining n => (Ok tt, set_status (Retrieving n) g)
  | kw_mtg None => (Raise (AttributeError "long_name"), g)
  | kw_mtg (Some mtg) =>
      (Ok tt,
       set_status (Reading (Meeting.long_name mtg) (Meeting.first mtg)
                           (Meeting.last mtg) None) g)
  | kw_mtg_trn None _ => (Raise (AttributeError "long_name"), g)
  | kw_mtg_trn (Some mtg) None => (Raise (AttributeError "current"), g)
  | kw_mtg_trn (Some mtg) (Some trn) =>
      (Ok tt,
       set_status (Reading (Meeting.long_name mtg) (Meeting.first mtg)
                           (Meeting.last mtg)
                           (Some (Transaction.current trn))) g)
  end.

(** *** Tree model iterators

    Rows are numbered from 0; an iterator is the number of its row.
    These are the [Gtk.TreeModel] methods as Python sees them:
    [get_iter_first] and the two steps answer [None] where there is no
    row, [get_iter] raises [ValueError] for a path without a row. *)
Definition get_iter_first {A} (model : list A) : option nat :=
  match model with
  | [] => None
  | _ :: _ => Some 0%nat
  end.

Definition get_iter {A} (model : list A) (path : nat) : Result nat :=
  if (path <? length model)%nat then Ok path else Raise ValueError.

Definition iter_next {A} (model : list A) (it : nat) : option nat :=
  if (S it <? length model)%nat then Some (S it) else None.

Definition iter_previous {A} (model : list A) (it : nat) : option nat :=
  match it with
  | O => None
  | S it' => Some it'
  end.

(** The module-level helper computes the iterator of the last row and
    then ends without a [return]: its value is always [None], unless
    [get_iter] raised (an empty model has no row 0). *)
Definition gtk_tree_model_get_iter_last {A} (tree_model : list A)
    : Result (option nat) :=
  let path_row :=
    if (length tree_model =? 0)%nat then 0%nat
    else (length tree_model - 1)%nat in
  match get_iter tree_model path_row with
  | Ok _ => Ok None
  | Raise e => Raise e
  end.

Section XdscMore.

Variable D : Discuss.

(** The [while trn.prev != 0] loop of [show_all_activate].  Nothing in
    the source bounds it, so the model counts iterations down from
    [fuel]; [None] says the fuel ran out before the loop ended. *)
Fixpoint show_all_loop (fuel : nat) (trn : Transaction.t) (g : Gui)
    : option (Result unit * Gui) :=
  if decide (Transaction.prev trn = 0) then Some (Ok tt, g)
  else
    match fuel with
    | O => None
    | S fuel' =>
        match current_meeting (xdsc g) with
        | None => Some (Raise (AttributeError "get_transaction"), g)
        | Some mtg =>
            match in_discuss (Meeting_get_transaction D mtg (Transaction.prev trn)) g with
            | (Raise e, g1) => Some (Raise e, g1)
            | (Ok trn', g1) =>
                let g2 :=
                  with_xdsc
                    (fun x =>
                       ui_debug (UiPrepending (Transaction.current trn'))
                         (mkXdsc (discuss x) (current_meeting x)
                                 (trn' :: trans_liststore x) (uilog x)))
                    g1 in
                match update_status_label
                        (kw_remaining (Transaction.current trn' - Meeting.first mtg))
                        g2 with
                | (Raise e, g3) => Some (Raise e, g3)
                | (Ok _, g3) => show_all_loop fuel' trn' g3
                end
            end
        end
    end.

Definition show_all_activate (fuel : nat) (g : Gui)
    : option (Result unit * Gui) :=
  match trans_liststore (xdsc g) with
  | [] => Some (Raise TypeError, g)
  | trn :: _ =>
      match show_all_loop fuel trn g with
      | None => None
      | Some (Raise e, g') => Some (Raise e, g')
      | Some (Ok _, g') =>
          Some (update_status_label
                  (kw_mtg_trn (current_meeting (xdsc g')) (current_transaction g'))
                  g')
      end
  end.

(** The [while walk_function(tree_iter) is not None] loop of
    [_find_unread_meetings], over the rows the walk still has before it,
    nearest first, each with its row number. *)
Fixpoint find_unread_loop (rows : list (nat * (string * Meeting.t)))
    : M (option nat) :=
  match rows with
  | [] => ret None
  | (path, (_, mtg)) :: rows' =>
      changed <- meeting_has_changed D mtg ;;
      if changed then ret (Some path) else find_unread_loop rows'
  end.

(** The rows after row [it], and the rows before it from the nearest. *)
Definition rows_after {A} (model : list A) (it : nat) : list (nat * A) :=
  drop (S it) (imap pair model).

Definition rows_before {A} (model : list A) (it : nat) : list (nat * A) :=
  reverse (take it (imap pair model)).

(** [walk_function(None)] fails inside the binding's [aiter.copy()]. *)
Definition _find_unread_meetings (backwards : bool) (start_path : option nat)
    (g : Gui) : Result (option nat) * Gui :=
  let ls := meeting_liststore g in
  let start : Result (option nat) :=
    match start_path with
    | Some path =>
        match get_iter ls path with
        | Ok it => Ok (Some it)
        | Raise e => Raise e
        end
    | None =>
        if backwards then gtk_tree_model_get_iter_last ls
        else Ok (get_iter_first ls)
    end in
  match start with
  | Raise e => (Raise e, g)
  | Ok None => (Raise (AttributeError "copy"), g)
  | Ok (Some it) =>
      in_discuss
        (find_unread_loop
           (if backwards then rows_before ls it else rows_after ls it))
        g
  end.

End XdscMore.

(** *** Font size keys *)

(** The keys [font_size_keypress_event] tells apart. *)
Inductive Key : Type :=
| KEY_plus
| KEY_KP_Add
| KEY_minus
| KEY_KP_Subtract
| KEY_other.

(** [font_size_keypress_event], on the size of the widget's font in
    Pango units: the size the handler leaves, and whether it rang the
    bell.  [SCALE] is [Pango.SCALE], [control] is
    [event.state & CONTROL_MASK]. *)
Definition font_size_keypress_event (SCALE : Z) (control : bool) (keyval : Key)
    (size : Z) : Z * bool :=
  if control then
    match keyval with
    | KEY_plus | KEY_KP_Add =>
        if 16 <=? size / SCALE then (size, true) else (size + SCALE, false)
    | KEY_minus | KEY_KP_Subtract =>
        if size / SCALE <=? 6 then (size, true) else (size - SCALE, false)
    | KEY_other => (size, false)
    end
  else (size, false).

Section VocabularyMore.

Variable D : Discuss.

(** What the unread probe of a meeting comes to, given the registry:
    the service's answer to [check_update] at the stored cursor. *)
Definition has_changed_answer (rc : RCFile) (mtg : Meeting.t) : Result bool :=
  match lookup_name rc (inl (Meeting.long_name mtg)) with
  | None => Raise KeyError
  | Some loc =>
      match entries rc !! loc with
      | None => Raise KeyError
      | Some entry =>
          match check_update D (Meeting.id mtg) (Entry.last_transaction entry) with
          | inr changed => Ok changed
          | inl e => Raise (Remote e)
          end
      end
  end.

(** Row [k] of the meeting list holds a meeting whose unread probe
    comes to [r]. *)
Definition row_answer (rc : RCFile) (ls : list (string * Meeting.t)) (k : nat)
    (r : Result bool) : Prop :=
  ∃ markup mtg, ls !! k = Some (markup, mtg) ∧ has_changed_answer rc mtg = r.

(** Whether the turn of [m] in the scan of [check_meetings] flags or
    renames its entry. *)
Definition changes (m : Location) (e : Entry.t) : bool :=
  if Entry.deleted e then false
  else
    match attend D m with
    | inl _ => quarantined D m
    | inr info =>
        match Entry.names e with
        | name0 :: _ => negb (bool_decide (Info.long_name info = name0))
        | [] => false
        end
    end.

(** The failures of attending a meeting that an [except] clause of
    [check_meetings] names. *)
Definition caught (e : RemoteError) : bool :=
  match e with
  | DiscussError _ | ProtocolError | socket_timeout => true
  | socket_error => false
  end.

(** The exception that leaves [check_meetings] at the turn of [m]:
    attending a meeting that is not flagged fails with a class that no
    clause names. *)
Definition aborts (m : Location) (e : Entry.t) : option RemoteError :=
  if Entry.deleted e then None
  else
    match attend D m with
    | inl err => if caught err then None else Some err
    | inr _ => None
    end.

(** The keys whose turn the scan completes, in the order of the scan,
    and the failure that ends the scan early, if any. *)
Fixpoint scanned (es : gmap Location Entry.t) (ms : list Location)
    : list Location * option RemoteError :=
  match ms with
  | [] => ([], None)
  | m :: ms' =>
      match es !! m ≫= aborts m with
      | Some err => ([], Some err)
      | None => (m :: (scanned es ms').1, (scanned es ms').2)
      end
  end.

(** The transactions the service hands out for the meeting carry the
    number asked for, and their [prev] pointer is 0 or a smaller
    positive number. *)
Definition descending (mtg : Meeting.t) : Prop :=
  ∀ n trn, fetch D (Meeting.id mtg) n = inr trn →
    Transaction.current trn = n ∧ 0 ≤ Transaction.prev trn < n.

End VocabularyMore.

(** A window on the sample service: the first meeting read up to 20
    (nothing new), a second meeting read up to 3, the list of meetings
    with the first one twice before the second, and the window of
    transactions holding 15 and 16 with 15 shown. *)
Module SampleGui.

Definition loc3 : Location := ("host"%string, "/news"%string).

Definition entry3 : Entry.t :=
  Entry.mk ["news"%string] "news" "host" 3 false.

Definition meeting3 : Meeting.t :=
  Meeting.loaded 0%nat loc3 (Info.mk "news" "news" 1 20 5 20).

Definition registry2 : RCFile :=
  mkRCFile {[ Sample.loc0 := Sample.entry0 20; loc3 := entry3 ]}
           {[ inl "long"%string := Sample.loc0;
              inl "short"%string := Sample.loc0;
              inl "news"%string := loc3;
              inr Sample.loc0 := Sample.loc0; inr loc3 := loc3 ]}
           {[ Sample.loc0 := Sample.entry0 20; loc3 := entry3 ]} false.

Definition gui : Gui :=
  mkGui (mkXdsc (Sample.fresh registry2) (Some Sample.meeting0)
                [Sample.trn 15; Sample.trn 16] [])
        (Some (Sample.trn 15))
        [("long"%string, Sample.meeting0); ("long"%string, Sample.meeting0);
         ("<b>news</b>"%string, meeting3)]
        None.

(** What [show_all_activate] leaves of [gui]. *)
Definition gui_shown : Result unit * Gui :=
  default (Ok tt, gui) (show_all_activate Sample.service 14 gui).

End SampleGui.

(** The sample service after transaction 3 has been retrieved from
    deletion.  A meeting object loaded before that, such as
    [Sample.meeting0], still says [first = 5]. *)
Module Stale.

Definition service : Discuss :=
  mkDiscuss (connect Sample.service) (check_update Sample.service)
            (load_info Sample.service)
            (fun loc n =>
               if n =? 3 then inr (Sample.trn 3)
               else fetch Sample.service loc n)
            (rcfile_add Sample.service) (rcfile_index Sample.service)
            (rcfile_save_fails Sample.service).

End Stale.

(** The sample service with one more host, which refuses the
    connection, and a registry holding a meeting on that host besides
    the first sample meeting and the one that no longer exists. *)
Module Refused.

Definition loc : Location := ("closed"%string, "/shut"%string).

Definition entry : Entry.t :=
  Entry.mk ["shut"%string] "shut" "closed" 0 false.

Definition service : Discuss :=
  mkDiscuss (fun host => if decide (host = "closed"%string)
                         then Some socket_error
                         else connect Sample.service host)
            (check_update Sample.service) (load_info Sample.service)
            (fetch Sample.service)
            (rcfile_add Sample.service) (rcfile_index Sample.service)
            (rcfile_save_fails Sample.service).

Definition registry : RCFile :=
  mkRCFile {[ Sample.loc0 := Sample.entry0 9; loc := entry;
              Sample.loc2 := Sample.entry2 ]}
           {[ inl "long"%string := Sample.loc0;
              inl "short"%string := Sample.loc0;
              inl "shut"%string := loc; inl "old"%string := Sample.loc2;
              inr Sample.loc0 := Sample.loc0; inr loc := loc;
              inr Sample.loc2 := Sample.loc2 ]}
           {[ Sample.loc0 := Sample.entry0 9; loc := entry;
              Sample.loc2 := Sample.entry2 ]} false.

End Refused.

(** The sample service with a second meeting that has the long name of
    the first, on another host, and a registry holding both: the first
    read up to 9, the second up to 4.  The index is the one [recache]
    builds. *)
Module Twin.

Definition loc : Location := ("other"%string, "/path"%string).

Definition entry : Entry.t :=
  Entry.mk ["long"%string] "long" "other" 4 false.

Definition service : Discuss :=
  mkDiscuss (connect Sample.service) (check_update Sample.service)
            (fun l => if decide (l = loc) then inr Sample.info0
                      else load_info Sample.service l)
            (fetch Sample.service)
            (rcfile_add Sample.service) (rcfile_index Sample.service)
            (rcfile_save_fails Sample.service).

Definition registry : RCFile :=
  mkRCFile {[ Sample.loc0 := Sample.entry0 9; loc := entry ]}
           (rcfile_index Sample.service
              {[ Sample.loc0 := Sample.entry0 9; loc := entry ]})
           {[ Sample.loc0 := Sample.entry0 9; loc := entry ]} false.

End Twin.

(** The first sample meeting after its long name has changed on the
    server and [load_info(force=True)] has refreshed the meeting object;
    the registry still lists it under the old name. *)
Module Renamed.

Definition meeting : Meeting.t :=
  Meeting.loaded 0%nat Sample.loc0 (Info.mk "short" "renamed" 1 20 5 20).

End Renamed.


Lemma xrange_up (a b : Z) :
  xrange a b 1 = map (fun i => a + Z.of_nat i) (seq 0 (Z.to_nat (b - a))).
Proof.
  unfold xrange. simpl.
  replace (b - a + 1 - 1) with (b - a) by lia. rewrite Z.div_1_r.
  apply map_ext. intros i. lia.
Qed.

Lemma xrange_down (a b : Z) :
  xrange a b (-1) = map (fun i => a - Z.of_nat i) (seq 0 (Z.to_nat (a - b))).
Proof.
  unfold xrange. simpl.
  replace (a - b - -1 - 1) with (a - b) by lia. rewrite Z.div_1_r.
  apply map_ext. intros i. lia.
Qed.

Lemma In_xrange_up (a b t : Z) : In t (xrange a b 1) ↔ a ≤ t < b.
Proof.
  rewrite xrange_up, in_map_iff. split.
  - intros (i & <- & Hi). apply in_seq in Hi. lia.
  - intros H. exists (Z.to_nat (t - a)). split; [lia|]. apply in_seq. lia.
Qed.

Lemma In_xrange_down (a b t : Z) : In t (xrange a b (-1)) ↔ b < t ≤ a.
Proof.
  rewrite xrange_down, in_map_iff. split.
  - intros (i & <- & Hi). apply in_seq in Hi. lia.
  - intros H. exists (Z.to_nat (a - t)). split; [lia|]. apply in_seq. lia.
Qed.

Lemma NoDup_xrange_up (a b : Z) : List.NoDup (xrange a b 1).
Proof.
  rewrite xrange_up. apply Finite.Injective_map_NoDup.
  - intros i j. lia.
  - apply seq_NoDup.
Qed.

Lemma NoDup_xrange_down (a b : Z) : List.NoDup (xrange a b (-1)).
Proof.
  rewrite xrange_down. apply Finite.Injective_map_NoDup.
  - intros i j. lia.
  - apply seq_NoDup.
Qed.

Lemma length_xrange_up (a b : Z) : length (xrange a b 1) = Z.to_nat (b - a).
Proof. rewrite xrange_up, length_map, length_seq. reflexivity. Qed.

Section Properties.

Variable D : Discuss.

(** What [get_transaction] does, in one equation. *)
Lemma get_transaction_eq (m : Meeting.t) (n : Z) (u : bool) (s : State) :
  get_transaction D m n u s =
  let s1 := with_dslog (fun l => l ++ [LogRetrieving (Meeting.short_name m) n]) s in
  if (n <? Meeting.lowest m) || (Meeting.highest m <? n)
  then (Raise ValueError, s1)
  else
    let s2 := with_rpc_log (fun l => l ++ [RpcFetch (Meeting.id m) n]) s1 in
    match fetch D (Meeting.id m) n with
    | inl e => (Raise (Remote e), s2)
    | inr trn =>
        (Ok trn,
         if u then with_rcfile (touch (Meeting.id m) (Transaction.current trn)) s2
         else s2)
    end.
Proof.
  unfold get_transaction, bind, debug, modify, raise. simpl.
  destruct ((n <? Meeting.lowest m) || (Meeting.highest m <? n)); [reflexivity|].
  unfold Meeting_get_transaction, rpc, touch_meeting, modify, ret.
  destruct (fetch D (Meeting.id m) n); [reflexivity|].
  destruct u; reflexivity.
Qed.

Lemma tried_app (l1 l2 : list LogMsg) : tried (l1 ++ l2) = tried l1 ++ tried l2.
Proof. unfold tried. apply omap_app. Qed.

(** The loop of [find_next_valid_transaction] over any list of numbers:
    it skips a prefix, and then either runs out, or stops at a number
    [t] with the fetched transaction, with the fetch's other error, or
    with the range error of [get_transaction]. *)
Lemma find_loop_spec (m : Meeting.t) (ts : list Z) :
  ∀ (s s' : State) (r : Result (option Transaction.t)),
    find_loop D m ts s = (r, s') →
    ∃ skipped : list Z,
      Forall (fun t => in_numbering m t ∧ skips D m t) skipped
      ∧ ((r = Ok None ∧ ts = skipped
          ∧ rcfile s' = rcfile s
          ∧ tried (dslog s') = tried (dslog s) ++ skipped)
         ∨ (∃ t rest,
              ts = skipped ++ t :: rest
              ∧ tried (dslog s') = tried (dslog s) ++ skipped ++ [t]
              ∧ ((∃ trn, in_numbering m t
                         ∧ fetch D (Meeting.id m) t = inr trn
                         ∧ r = Ok (Some trn)
                         ∧ rcfile s' =
                           touch (Meeting.id m) (Transaction.current trn) (rcfile s))
                 ∨ (∃ e, in_numbering m t
                         ∧ fetch D (Meeting.id m) t = inl e
                         ∧ fatal e
                         ∧ r = Raise (Remote e)
                         ∧ rcfile s' = rcfile s)
                 ∨ (¬ in_numbering m t
                    ∧ r = Raise ValueError
                    ∧ rcfile s' = rcfile s)))).
Proof.
  induction ts as [|t ts IH]; intros s s' r Hrun.
  - inversion Hrun; subst. exists []. split; [constructor|].
    left. rewrite app_nil_r. auto.
  - cbn [find_loop] in Hrun. unfold bind, debug, modify in Hrun.
    rewrite get_transaction_eq in Hrun. cbv zeta in Hrun.
    remember (with_dslog _ (with_dslog _ s)) as s1 eqn:Hs1 in Hrun.
    assert (Hlog : tried (dslog s1) = tried (dslog s) ++ [t]).
    { subst s1. simpl. rewrite !tried_app. simpl. rewrite app_nil_r.
      reflexivity. }
    assert (Hrc : rcfile s1 = rcfile s) by (subst s1; reflexivity).
    clear Hs1.
    destruct ((t <? Meeting.lowest m) || (Meeting.highest m <? t)) eqn:Hrange.
    + inversion Hrun; subst r s'. exists []. split; [constructor|].
      right. exists t, ts. split; [reflexivity|]. split; [exact Hlog|].
      right. right. split; [|split; [reflexivity|exact Hrc]].
      unfold in_numbering. apply orb_true_iff in Hrange. lia.
    + assert (Hin : in_numbering m t).
      { unfold in_numbering. apply orb_false_iff in Hrange. lia. }
      destruct (fetch D (Meeting.id m) t) as [e|trn] eqn:Hfetch.
      * destruct e as [code| | |].
        -- destruct (skip_code code) eqn:Hskip.
           ++ apply IH in Hrun as (skipped & Hsk & Hcases).
              exists (t :: skipped). split.
              { constructor; [|exact Hsk]. split; [exact Hin|].
                exists code. auto. }
              simpl in Hcases. rewrite Hlog, Hrc in Hcases.
              destruct Hcases as [(-> & -> & Hr & Ht)|(t' & rest & -> & Ht & Hc)].
              ** left. rewrite Ht, <- app_assoc. auto.
              ** right. exists t', rest. split; [reflexivity|].
                 split; [rewrite Ht, <- app_assoc; reflexivity|].
                 exact Hc.
           ++ inversion Hrun; subst r s'. exists []. split; [constructor|].
              right. exists t, ts. split; [reflexivity|]. split; [exact Hlog|].
              right. left. exists (DiscussError code).
              split; [exact Hin|]. split; [exact Hfetch|].
           split; [|split; [reflexivity|exact Hrc]].
              intros c Hc. injection Hc as <-. exact Hskip.
        -- inversion Hrun; subst r s'. exists []. split; [constructor|].
           right. exists t, ts. split; [reflexivity|]. split; [exact Hlog|].
           right. left. exists ProtocolError.
           split; [exact Hin|]. split; [exact Hfetch|].
           split; [|split; [reflexivity|exact Hrc]].
           intros c Hc. discriminate.
        -- inversion Hrun; subst r s'. exists []. split; [constructor|].
           right. exists t, ts. split; [reflexivity|]. split; [exact Hlog|].
           right. left. exists socket_timeout.
           split; [exact Hin|]. split; [exact Hfetch|].
           split; [|split; [reflexivity|exact Hrc]].
           intros c Hc. discriminate.
        -- inversion Hrun; subst r s'. exists []. split; [constructor|].
           right. exists t, ts. split; [reflexivity|]. split; [exact Hlog|].
           right. left. exists socket_error.
           split; [exact Hin|]. split; [exact Hfetch|].
           split; [|split; [reflexivity|exact Hrc]].
           intros c Hc. discriminate.
      * inversion Hrun; subst r s'. exists []. split; [constructor|].
        right. exists t, ts. split; [reflexivity|]. split; [exact Hlog|].
        left. exists trn. split; [exact Hin|]. split; [exact Hfetch|].
        split; [reflexivity|]. simpl. rewrite Hrc. reflexivity.
Qed.

Lemma last_read_of_cursor (m : Meeting.t) (c : Z) (s : State) :
  cursor_is (rcfile s) m c → _last_read_transaction m s = (Ok c, s).
Proof.
  intros [Hname Hentry]. unfold _last_read_transaction. rewrite Hname.
  destruct (entries (rcfile s) !! Meeting.id m) as [entry|]; [|discriminate].
  simpl in Hentry. injection Hentry as <-. reflexivity.
Qed.

(** A successful read of the cursor leaves the state alone. *)
Lemma last_read_inv (m : Meeting.t) (s s' : State) (c : Z) :
  _last_read_transaction m s = (Ok c, s') → s' = s.
Proof.
  unfold _last_read_transaction.
  destruct (lookup_name _ _) as [loc|]; [|discriminate].
  destruct (entries (rcfile s) !! loc); [|discriminate].
  intros H. injection H as _ <-. reflexivity.
Qed.

Lemma last_read_fails (m : Meeting.t) (s s' : State) (e : exn) :
  _last_read_transaction m s = (Raise e, s') → s' = s.
Proof.
  unfold _last_read_transaction.
  destruct (lookup_name _ _) as [loc|].
  - destruct (entries (rcfile s) !! loc); [discriminate|].
    intros H. injection H as _ <-. reflexivity.
  - intros H. injection H as _ <-. reflexivity.
Qed.

(** [find_next_valid_transaction] once the cursor [c] has been read: at
    or beyond the boundary it calls the method that does not exist;
    otherwise it is the loop from one past the cursor to the boundary. *)
Lemma find_next_valid_eq (m : Meeting.t) (backwards : bool) (s : State) (c : Z) :
  _last_read_transaction m s = (Ok c, s) →
  find_next_valid_transaction D m backwards s =
  if backwards then
    if c <=? Meeting.first m
    then (Raise (AttributeError "go_to_transaction"), s)
    else find_loop D m (xrange (c + -1) (Meeting.first m + -1) (-1)) s
  else
    if Meeting.last m <=? c
    then (Raise (AttributeError "go_to_transaction"), s)
    else find_loop D m (xrange (c + 1) (Meeting.last m + 1) 1) s.
Proof.
  intros Hread. unfold find_next_valid_transaction, bind. rewrite Hread.
  destruct backwards; simpl.
  - destruct (c <=? Meeting.first m); reflexivity.
  - destruct (Meeting.last m <=? c); reflexivity.
Qed.

(** At or beyond the boundary of the walk the call always ends in the
    [AttributeError], before any transaction is fetched. *)
Lemma find_next_valid_at_boundary (m : Meeting.t) (backwards : bool)
    (s : State) (c : Z) :
  cursor_is (rcfile s) m c →
  (if backwards then c ≤ Meeting.first m else Meeting.last m ≤ c) →
  find_next_valid_transaction D m backwards s =
  (Raise (AttributeError "go_to_transaction"), s).
Proof.
  intros Hc Hb. rewrite (find_next_valid_eq m backwards s c)
    by (apply last_read_of_cursor; exact Hc).
  destruct backwards.
  - destruct (Z.leb_spec c (Meeting.first m)); [reflexivity|lia].
  - destruct (Z.leb_spec (Meeting.last m) c); [reflexivity|lia].
Qed.

(** Short of the boundary, the call is the walk of C3's sentence: it
    skips deleted and missing numbers from one past the cursor on,
    returns the first transaction fetched, passes any other error of a
    fetch on, and returns [None] when every number up to the boundary
    was skipped. *)
Lemma find_next_valid_walk (m : Meeting.t) (backwards : bool)
    (s s' : State) (c : Z) (r : Result (option Transaction.t)) :
  cursor_is (rcfile s) m c →
  (if backwards then Meeting.first m < c ≤ Meeting.highest m + 1
   else Meeting.lowest m - 1 ≤ c < Meeting.last m) →
  (if backwards then Meeting.lowest m ≤ Meeting.first m
   else Meeting.last m ≤ Meeting.highest m) →
  find_next_valid_transaction D m backwards s = (r, s') →
  ∃ skipped : list Z,
    Forall (skips D m) skipped
    ∧ ((r = Ok None
        ∧ skipped = (if backwards
                     then xrange (c - 1) (Meeting.first m - 1) (-1)
                     else xrange (c + 1) (Meeting.last m + 1) 1)
        ∧ rcfile s' = rcfile s)
       ∨ (∃ t rest,
            (if backwards
             then xrange (c - 1) (Meeting.first m - 1) (-1)
             else xrange (c + 1) (Meeting.last m + 1) 1)
            = skipped ++ t :: rest
            ∧ ((∃ trn, fetch D (Meeting.id m) t = inr trn
                       ∧ r = Ok (Some trn))
               ∨ (∃ e, fetch D (Meeting.id m) t = inl e
                       ∧ fatal e ∧ r = Raise (Remote e))))).
Proof.
  intros Hc Hcur Hinv Hrun.
  rewrite (find_next_valid_eq m backwards s c) in Hrun
    by (apply last_read_of_cursor; exact Hc).
  destruct backwards.
  - destruct (Z.leb_spec c (Meeting.first m)); [lia|].
    replace (c + -1) with (c - 1) in Hrun by lia.
    replace (Meeting.first m + -1) with (Meeting.first m - 1) in Hrun by lia.
    apply find_loop_spec in Hrun as (skipped & Hsk & Hcases).
    exists skipped. split.
    { eapply Forall_impl; [exact Hsk|]. intros t [_ Ht]. exact Ht. }
    destruct Hcases as [(-> & -> & Hrc & _)|(t & rest & Hts & _ & Hc3)].
    + left. auto.
    + right. exists t, rest. split; [exact Hts|].
      destruct Hc3 as [(trn & _ & Hf & -> & _)|[(e & _ & Hf & He & -> & _)|(Hout & _)]].
      * left. eauto.
      * right. eauto.
      * exfalso. apply Hout.
        assert (Hin : In t (xrange (c - 1) (Meeting.first m - 1) (-1))).
        { rewrite Hts. apply in_or_app. right. left. reflexivity. }
        apply In_xrange_down in Hin. unfold in_numbering. lia.
  - destruct (Z.leb_spec (Meeting.last m) c); [lia|].
    apply find_loop_spec in Hrun as (skipped & Hsk & Hcases).
    exists skipped. split.
    { eapply Forall_impl; [exact Hsk|]. intros t [_ Ht]. exact Ht. }
    destruct Hcases as [(-> & -> & Hrc & _)|(t & rest & Hts & _ & Hc3)].
    + left. auto.
    + right. exists t, rest. split; [exact Hts|].
      destruct Hc3 as [(trn & _ & Hf & -> & _)|[(e & _ & Hf & He & -> & _)|(Hout & _)]].
      * left. eauto.
      * right. eauto.
      * exfalso. apply Hout.
        assert (Hin : In t (xrange (c + 1) (Meeting.last m + 1) 1)).
        { rewrite Hts. apply in_or_app. right. left. reflexivity. }
        apply In_xrange_up in Hin. unfold in_numbering. lia.
Qed.

Lemma cursor_after_touch (rc : RCFile) (m : Meeting.t) (n : Z) :
  registered rc m → cursor_is (touch (Meeting.id m) n rc) m n.
Proof.
  intros [Hname [entry Hentry]]. split; [exact Hname|].
  simpl. rewrite lookup_alter. case_decide; [|congruence].
  rewrite Hentry. reflexivity.
Qed.

(** C2 (as the code has it): [get_transaction] raises its range error
    exactly when the number is below [lowest] or above [highest], and
    then nothing is fetched and the registry is untouched; otherwise it
    sends one fetch of that number, its result is the fetch's
    transaction or error, and the registry is touched with the fetched
    transaction's number only when the fetch succeeded and [updateLast]
    is set. *)
Theorem get_transaction_range_check (m : Meeting.t) (n : Z) (u : bool) (s : State) :
  let out := get_transaction D m n u s in
  if decide (n < Meeting.lowest m ∨ Meeting.highest m < n) then
    fst out = Raise ValueError
    ∧ rpc_log (snd out) = rpc_log s
    ∧ rcfile (snd out) = rcfile s
  else
    fst out ≠ Raise ValueError
    ∧ rpc_log (snd out) = rpc_log s ++ [RpcFetch (Meeting.id m) n]
    ∧ match fetch D (Meeting.id m) n with
      | inr trn =>
          fst out = Ok trn
          ∧ rcfile (snd out) =
            (if u then touch (Meeting.id m) (Transaction.current trn) (rcfile s)
             else rcfile s)
      | inl e => fst out = Raise (Remote e) ∧ rcfile (snd out) = rcfile s
      end.
Proof.
  cbv zeta. rewrite get_transaction_eq. cbv zeta.
  case_decide as Hr.
  - assert (Hb : (n <? Meeting.lowest m) || (Meeting.highest m <? n) = true).
    { apply orb_true_iff. lia. }
    rewrite Hb. auto.
  - assert (Hb : (n <? Meeting.lowest m) || (Meeting.highest m <? n) = false).
    { apply orb_false_iff. lia. }
    rewrite Hb.
    destruct (fetch D (Meeting.id m) n) as [e|trn]; simpl.
    + split; [discriminate|]. auto.
    + split; [discriminate|]. destruct u; auto.
Qed.

(** C4 (as the code has it): whenever [find_next_valid_transaction]
    returns a transaction, whatever the stored cursor was, it is the
    service's answer to the fetch of a number [t] that lies strictly
    past the cursor in the walking direction and no further than the
    boundary the walk heads for ([last] forward, [first] backward),
    within [[lowest, highest]], and [t] is not among the numbers the
    walk tried before and skipped.  Nothing bounds [t] on the side the
    walk starts from. *)
Theorem find_next_valid_in_valid_range (m : Meeting.t) (backwards : bool)
    (s s' : State) (trn : Transaction.t) :
  find_next_valid_transaction D m backwards s = (Ok (Some trn), s') →
  ∃ (c t : Z) (skipped : list Z),
    _last_read_transaction m s = (Ok c, s)
    ∧ fetch D (Meeting.id m) t = inr trn
    ∧ Meeting.lowest m ≤ t ≤ Meeting.highest m
    ∧ (if backwards then Meeting.first m ≤ t < c
       else c < t ≤ Meeting.last m)
    ∧ tried (dslog s') = tried (dslog s) ++ skipped ++ [t]
    ∧ Forall (skips D m) skipped
    ∧ ¬ In t skipped.
Proof.
  intros Hrun.
  destruct (_last_read_transaction m s) as [[c|e] s1] eqn:Hread.
  2:{ unfold find_next_valid_transaction, bind in Hrun.
      rewrite Hread in Hrun. discriminate. }
  pose proof (last_read_inv _ _ _ _ Hread) as ->.
  rewrite (find_next_valid_eq m backwards s c Hread) in Hrun.
  assert (Hwalk : ∃ ts, find_loop D m ts s = (Ok (Some trn), s')
                        ∧ List.NoDup ts
                        ∧ ∀ t, In t ts →
                            if backwards then Meeting.first m ≤ t < c
                            else c < t ≤ Meeting.last m).
  { destruct backwards.
    - destruct (c <=? Meeting.first m); [discriminate|].
      eexists. split; [exact Hrun|]. split; [apply NoDup_xrange_down|].
      intros t Ht. apply In_xrange_down in Ht. lia.
    - destruct (Meeting.last m <=? c); [discriminate|].
      eexists. split; [exact Hrun|]. split; [apply NoDup_xrange_up|].
      intros t Ht. apply In_xrange_up in Ht. lia. }
  destruct Hwalk as (ts & Hloop & Hnodup & Hside).
  apply find_loop_spec in Hloop as (skipped & Hsk & Hcases).
  destruct Hcases as [(Hr & _)|(t & rest & Hts & Hlog & Hc3)]; [discriminate|].
  destruct Hc3 as [(trn' & Hin & Hf & Hr & _)|[(e & _ & _ & _ & Hr & _)|(_ & Hr & _)]];
    try discriminate.
  injection Hr as <-. exists c, t, skipped.
  split; [reflexivity|]. split; [exact Hf|]. split; [exact Hin|]. split.
  { apply Hside. rewrite Hts. apply in_or_app. right. left. reflexivity. }
  split; [exact Hlog|]. split.
  - eapply Forall_impl; [exact Hsk|]. intros x [_ Hx]. exact Hx.
  - subst ts. apply NoDup_remove_2 in Hnodup. intros Hin'. apply Hnodup.
    apply in_or_app. left. exact Hin'.
Qed.

(** [_last_read_transaction] right after [touch_meeting], for any
    meeting: the write went to the entry under the meeting's [id], the
    read goes to the entry that the index gives for the meeting's long
    name, and sees the write only when the two are the same. *)
Lemma last_read_after_touch (m : Meeting.t) (trn : Transaction.t) (s : State) :
  ∃ s1, touch_meeting m trn s = (Ok tt, s1)
        ∧ fst (_last_read_transaction m s1)
          = match lookup_name (rcfile s) (inl (Meeting.long_name m)) with
            | None => Raise KeyError
            | Some loc =>
                match entries (rcfile s) !! loc with
                | None => Raise KeyError
                | Some entry =>
                    Ok (if decide (loc = Meeting.id m)
                        then Transaction.current trn
                        else Entry.last_transaction entry)
                end
            end.
Proof.
  eexists. split; [reflexivity|].
  unfold _last_read_transaction, lookup_name. simpl.
  destruct (cache (rcfile s) !! inl (Meeting.long_name m)) as [loc|];
    [|reflexivity].
  rewrite lookup_alter. case_decide as Hloc.
  - subst loc.
    destruct (entries (rcfile s) !! Meeting.id m); [|reflexivity].
    rewrite decide_True by reflexivity. reflexivity.
  - destruct (entries (rcfile s) !! loc); [|reflexivity].
    rewrite decide_False by congruence. reflexivity.
Qed.

(** For a meeting that the registry resolves by its long name to its
    own entry, [_last_read_transaction] after [touch_meeting] of a
    transaction returns that transaction's number. *)
Lemma record_view_then_last_read (m : Meeting.t) (trn : Transaction.t)
    (s : State) :
  registered (rcfile s) m →
  ∃ s1, touch_meeting m trn s = (Ok tt, s1)
        ∧ _last_read_transaction m s1 = (Ok (Transaction.current trn), s1).
Proof.
  intros Hreg. eexists. split; [reflexivity|].
  apply last_read_of_cursor. simpl. apply cursor_after_touch. exact Hreg.
Qed.

(** When [find_next_valid_transaction] returns a transaction, the
    registry it leaves behind is the one it started from with exactly
    that transaction recorded under the meeting's [id]; the skipped
    numbers recorded nothing, and when no transaction is returned the
    registry is as it was.  For a meeting that the registry resolves by
    its long name to its own entry, [_last_read_transaction] then
    returns the recorded number. *)
Lemma find_next_valid_records_view (m : Meeting.t) (backwards : bool)
    (s s' : State) (r : Result (option Transaction.t)) :
  find_next_valid_transaction D m backwards s = (r, s') →
  match r with
  | Ok (Some trn) =>
      rcfile s' = touch (Meeting.id m) (Transaction.current trn) (rcfile s)
      ∧ (registered (rcfile s) m →
         _last_read_transaction m s' = (Ok (Transaction.current trn), s'))
  | _ => rcfile s' = rcfile s
  end.
Proof.
  intros Hrun.
  destruct (_last_read_transaction m s) as [[c|e] s1] eqn:Hread.
  2:{ unfold find_next_valid_transaction, bind in Hrun.
      rewrite Hread in Hrun. injection Hrun as <- <-.
      apply last_read_fails in Hread as ->. reflexivity. }
  pose proof (last_read_inv _ _ _ _ Hread) as ->.
  rewrite (find_next_valid_eq m backwards s c Hread) in Hrun.
  assert (Hwalk : (r = Raise (AttributeError "go_to_transaction") ∧ s' = s)
                  ∨ ∃ ts, find_loop D m ts s = (r, s')).
  { destruct backwards.
    - destruct (c <=? Meeting.first m); [left|right; eauto].
      injection Hrun as <- <-. auto.
    - destruct (Meeting.last m <=? c); [left|right; eauto].
      injection Hrun as <- <-. auto. }
  destruct Hwalk as [[-> ->]|(ts & Hloop)]; [reflexivity|].
  apply find_loop_spec in Hloop as (skipped & _ & Hcases).
  destruct Hcases as [(-> & _ & Hrc & _)|(t & rest & _ & _ & Hc3)]; [exact Hrc|].
  destruct Hc3 as [(trn & _ & _ & -> & Hrc)|[(e & _ & _ & _ & -> & Hrc)|(_ & -> & Hrc)]];
    try exact Hrc.
  split; [exact Hrc|]. intros Hreg. apply last_read_of_cursor. rewrite Hrc.
  apply cursor_after_touch. exact Hreg.
Qed.

(** What [_get_connection] does, in one equation. *)
Lemma _get_connection_eq (host : string) (s : State) :
  _get_connection D host s =
  match connectioncache s !! host with
  | Some conn => (Ok conn, s)
  | None =>
      let s1 := with_rpc_log (fun l => l ++ [RpcConnect host]) s in
      match connect D host with
      | Some e => (Raise (Remote e), s1)
      | None =>
          (Ok (length (clients s)),
           with_connectioncache (insert host (length (clients s)))
             (with_clients (fun l => l ++ [Client.mk host (Some (timeout s))]) s1))
      end
  end.
Proof.
  unfold _get_connection.
  destruct (connectioncache s !! host) as [conn|]; [reflexivity|].
  unfold bind, new_Client, modify. simpl.
  destruct (connect D host); [reflexivity|]. simpl.
  rewrite lookup_insert_eq. reflexivity.
Qed.

Lemma _get_connection_frame (host : string) (s : State) :
  let out := _get_connection D host s in
  meetingcache (snd out) = meetingcache s
  ∧ rcfile (snd out) = rcfile s
  ∧ dslog (snd out) = dslog s.
Proof.
  cbv zeta. rewrite _get_connection_eq.
  destruct (connectioncache s !! host); [auto|].
  destruct (connect D host); simpl; auto.
Qed.

(** [_get_connection] memoizes per host: with no handle cached for the
    host it connects, and on success stores and returns the new handle,
    after which a further call returns that same handle and leaves
    everything as it is; with a handle cached it returns it and
    constructs nothing.  [add_meeting] does not go through the getter:
    whenever the host answers it constructs a client of its own, without
    timeout, and leaves the connection cache as it was. *)
Lemma get_connection_memoized (host path : string) (s : State) :
  match connectioncache s !! host with
  | Some conn => _get_connection D host s = (Ok conn, s)
  | None =>
      let out := _get_connection D host s in
      match connect D host with
      | Some e =>
          fst out = Raise (Remote e)
          ∧ clients (snd out) = clients s
          ∧ connectioncache (snd out) = connectioncache s
      | None =>
          fst out = Ok (length (clients s))
          ∧ clients (snd out) = clients s ++ [Client.mk host (Some (timeout s))]
          ∧ connectioncache (snd out) =
            <[host := length (clients s)]> (connectioncache s)
          ∧ _get_connection D host (snd out) = (Ok (length (clients s)), snd out)
      end
  end
  ∧ match connect D host with
    | Some e => fst (add_meeting D host path s) = Raise (Remote e)
    | None =>
        clients (snd (add_meeting D host path s))
        = clients s ++ [Client.mk host None]
        ∧ connectioncache (snd (add_meeting D host path s)) = connectioncache s
    end.
Proof.
  split.
  - rewrite _get_connection_eq.
    destruct (connectioncache s !! host) as [conn|] eqn:Hc; [reflexivity|].
    cbv zeta. destruct (connect D host); simpl; [auto|].
    repeat split. rewrite _get_connection_eq. simpl.
    rewrite lookup_insert_eq. reflexivity.
  - unfold add_meeting, bind, new_Client.
    destruct (connect D host); [reflexivity|]. simpl.
    destruct (rcfile_add D _ _) as [e|rc]; simpl; [auto|].
    unfold rcfile_save. destruct (save D _); simpl; auto.
Qed.

(** What [get_meeting] does, in one equation. *)
Lemma get_meeting_eq (name : MeetingKey) (s : State) :
  get_meeting D name s =
  let s0 := with_dslog (fun l => l ++ [LogGetMeeting name]) s in
  match lookup_name (rcfile s) name with
  | None => (Raise TypeError, s0)
  | Some loc =>
      match meetingcache s !! loc with
      | Some mtg => (Ok mtg, s0)
      | None =>
          match _get_connection D (fst loc) s0 with
          | (Raise e, s1) => (Raise e, s1)
          | (Ok conn, s1) =>
              let s2 := with_rpc_log (fun l => l ++ [RpcCheckUpdate loc 0]) s1 in
              match check_update D loc 0 with
              | inl e =>
                  if decide (e = DiscussError NO_SUCH_TRN)
                  then load_and_cache D conn loc s2
                  else (Raise (Remote e), s2)
              | inr _ => load_and_cache D conn loc s2
              end
          end
      end
  end.
Proof.
  unfold get_meeting, bind, debug, modify. cbn [rcfile with_dslog meetingcache].
  destruct (lookup_name (rcfile s) name) as [loc|]; [|reflexivity].
  destruct (meetingcache s !! loc); [reflexivity|].
  destruct (_get_connection D (fst loc) _) as [[conn|e] s1]; [|reflexivity].
  unfold probe, rpc, load_and_cache, ret. cbv zeta.
  destruct (check_update D loc 0) as [[code| | |]|b].
  - destruct (decide (code = NO_SUCH_TRN)) as [->|Hne].
    + rewrite decide_True by reflexivity.
      destruct (load_info D loc); reflexivity.
    + rewrite decide_False by congruence. reflexivity.
  - rewrite decide_False by discriminate. reflexivity.
  - rewrite decide_False by discriminate. reflexivity.
  - rewrite decide_False by discriminate. reflexivity.
  - destruct (load_info D loc); reflexivity.
Qed.

(** Once a meeting is stored under [loc], any name resolving to [loc]
    gets it back, and only the logger hears of the call. *)
Lemma get_meeting_cached (name : MeetingKey) (loc : Location)
    (mtg : Meeting.t) (s : State) :
  lookup_name (rcfile s) name = Some loc →
  meetingcache s !! loc = Some mtg →
  get_meeting D name s
  = (Ok mtg, with_dslog (fun l => l ++ [LogGetMeeting name]) s).
Proof.
  intros Hn Hc. rewrite get_meeting_eq. cbv zeta. rewrite Hn, Hc. reflexivity.
Qed.

(** C6: for a name whose location is not in the meeting cache,
    [get_meeting] takes the host's connection from [_get_connection],
    probes with [check_update(0)], goes on when the probe succeeds or
    fails with [NO_SUCH_TRN] and raises the probe's error otherwise,
    then loads the metadata, stores the meeting under its location and
    returns it; a later call with any name resolving to that location
    returns the stored meeting and sends nothing. *)
Theorem get_meeting_uncached (name : MeetingKey) (loc : Location) (s : State) :
  lookup_name (rcfile s) name = Some loc →
  meetingcache s !! loc = None →
  let out := get_meeting D name s in
  let s0 := with_dslog (fun l => l ++ [LogGetMeeting name]) s in
  match _get_connection D (fst loc) s0 with
  | (Raise e, s1) => out = (Raise e, s1)
  | (Ok conn, s1) =>
      let probed := rpc_log s1 ++ [RpcCheckUpdate loc 0] in
      match check_update D loc 0 with
      | inl (DiscussError code) =>
          if decide (code = NO_SUCH_TRN) then
            match load_info D loc with
            | inl e =>
                fst out = Raise (Remote e)
                ∧ meetingcache (snd out) = meetingcache s
            | inr info =>
                let mtg := Meeting.loaded conn loc info in
                fst out = Ok mtg
                ∧ meetingcache (snd out) = <[loc := mtg]> (meetingcache s)
                ∧ rpc_log (snd out) = probed ++ [RpcLoadInfo loc]
                ∧ ∀ name', lookup_name (rcfile (snd out)) name' = Some loc →
                    get_meeting D name' (snd out)
                    = (Ok mtg,
                       with_dslog (fun l => l ++ [LogGetMeeting name']) (snd out))
            end
          else
            fst out = Raise (Remote (DiscussError code))
            ∧ meetingcache (snd out) = meetingcache s
            ∧ rpc_log (snd out) = probed
      | inl e =>
          fst out = Raise (Remote e)
          ∧ meetingcache (snd out) = meetingcache s
          ∧ rpc_log (snd out) = probed
      | inr _ =>
          match load_info D loc with
          | inl e =>
              fst out = Raise (Remote e)
              ∧ meetingcache (snd out) = meetingcache s
          | inr info =>
              let mtg := Meeting.loaded conn loc info in
              fst out = Ok mtg
              ∧ meetingcache (snd out) = <[loc := mtg]> (meetingcache s)
              ∧ rpc_log (snd out) = probed ++ [RpcLoadInfo loc]
              ∧ ∀ name', lookup_name (rcfile (snd out)) name' = Some loc →
                  get_meeting D name' (snd out)
                  = (Ok mtg,
                     with_dslog (fun l => l ++ [LogGetMeeting name']) (snd out))
          end
      end
  end.
Proof.
  intros Hname Hmiss. cbv zeta. rewrite get_meeting_eq. cbv zeta.
  rewrite Hname, Hmiss.
  pose proof (_get_connection_frame (fst loc)
                (with_dslog (fun l => l ++ [LogGetMeeting name]) s)) as Hframe.
  cbv zeta in Hframe.
  destruct (_get_connection D (fst loc) _) as [[conn|e] s1]; [|reflexivity].
  simpl in Hframe. destruct Hframe as (Hmc & Hrc & _).
  unfold load_and_cache.
  destruct (check_update D loc 0) as [[code| | |]|b].
  - destruct (decide (code = NO_SUCH_TRN)) as [->|Hne].
    + rewrite decide_True by reflexivity.
      destruct (load_info D loc) as [e|info]; simpl; [auto|].
      rewrite Hmc. repeat split. intros name' Hn.
      apply (get_meeting_cached name' loc); [exact Hn|].
      simpl. apply lookup_insert_eq.
    + rewrite decide_False by congruence. simpl. auto.
  - simpl. auto.
  - simpl. auto.
  - simpl. auto.
  - destruct (load_info D loc) as [e|info]; simpl; [auto|].
    rewrite Hmc. repeat split. intros name' Hn.
    apply (get_meeting_cached name' loc); [exact Hn|].
      simpl. apply lookup_insert_eq.
Qed.

Lemma last_nonempty_default {A} (l : list A) (a d d' : A) :
  List.last (a :: l) d = List.last (a :: l) d'.
Proof.
  revert a. induction l as [|b l IH]; intros a; [reflexivity|].
  change (List.last (b :: l) d = List.last (b :: l) d'). apply IH.
Qed.

Lemma load_more_loop_spec (mtg : Meeting.t) (range : list Z) :
  ∀ (trn : Transaction.t) (x x' : Xdsc) (r : Result unit),
    current_meeting x = Some mtg →
    load_more_loop D range trn x = (r, x') →
    ∃ fetched : list Transaction.t,
      trans_liststore x' = rev fetched ++ trans_liststore x
      ∧ current_meeting x' = Some mtg
      ∧ (length fetched ≤ length range)%nat
      ∧ followed D mtg trn fetched
      ∧ match r with
        | Ok _ =>
            (length fetched < length range)%nat →
            Transaction.prev (List.last fetched trn) = 0
        | Raise e =>
            Transaction.prev (List.last fetched trn) ≠ 0
            ∧ ∃ e', fetch D (Meeting.id mtg)
                          (Transaction.prev (List.last fetched trn)) = inl e'
                    ∧ e = Remote e'
        end.
Proof.
  induction range as [|i range IH]; intros trn x x' r Hmtg Hrun.
  - injection Hrun as <- <-. exists []. simpl. repeat split; auto. lia.
  - cbn [load_more_loop] in Hrun.
    destruct (decide (Transaction.prev trn = 0)) as [Hz|Hnz].
    { injection Hrun as <- <-. exists []. simpl. repeat split; auto. lia. }
    rewrite Hmtg in Hrun. unfold Meeting_get_transaction, rpc in Hrun.
    destruct (fetch D (Meeting.id mtg) (Transaction.prev trn)) as [e|trn'] eqn:Hf.
    { injection Hrun as <- <-. exists []. simpl.
      repeat split; auto; [lia|]. exists e. auto. }
    apply IH in Hrun as (fetched & Hstore & Hcm & Hlen & Hfol & Hr);
      [|reflexivity].
    exists (trn' :: fetched). simpl in Hstore. split.
    { rewrite Hstore. simpl. rewrite <- app_assoc. reflexivity. }
    split; [exact Hcm|]. split; [simpl; lia|]. split; [simpl; auto|].
    assert (Hlast : List.last (trn' :: fetched) trn = List.last fetched trn').
    { destruct fetched as [|a l]; [reflexivity|].
      change (List.last (trn' :: a :: l) trn) with (List.last (a :: l) trn).
      apply last_nonempty_default. }
    rewrite Hlast. destruct r as [u|e]; [|exact Hr].
    intros Hlt. apply Hr. simpl in Hlt. lia.
Qed.

(** C8: [load_more_transactions(num)] on a window whose oldest
    transaction is [t] prepends at most [num] transactions, each fetched
    through the [prev] pointer of the then-oldest one; it ends without
    error when it meets [prev == 0] (the only way to end normally with
    fewer than [num] added), an error can only come from a fetch, and
    once the oldest transaction has [prev == 0] it adds nothing. *)
Theorem load_more_transactions_extends (num : Z) (x : Xdsc) (mtg : Meeting.t)
    (t : Transaction.t) (rest : list Transaction.t) :
  current_meeting x = Some mtg →
  trans_liststore x = t :: rest →
  let out := load_more_transactions D num x in
  ∃ fetched : list Transaction.t,
    trans_liststore (snd out) = rev fetched ++ t :: rest
    ∧ (length fetched ≤ Z.to_nat num)%nat
    ∧ followed D mtg t fetched
    ∧ (Transaction.prev (List.last fetched t) = 0 → fst out = Ok tt)
    ∧ (fst out = Ok tt → (length fetched < Z.to_nat num)%nat →
       Transaction.prev (List.last fetched t) = 0)
    ∧ (fst out ≠ Ok tt →
       ∃ e, fetch D (Meeting.id mtg) (Transaction.prev (List.last fetched t))
            = inl e ∧ fst out = Raise (Remote e))
    ∧ (Transaction.prev t = 0 → fetched = [])
    ∧ (Transaction.prev (List.last fetched t) = 0 →
       ∀ num',
         let again := load_more_transactions D num' (snd out) in
         fst again = Ok tt
         ∧ trans_liststore (snd again) = trans_liststore (snd out)).
Proof.
  intros Hmtg Hstore. cbv zeta.
  assert (Hgen : ∀ (n : Z) (y : Xdsc) (t0 : Transaction.t) (rest0 : list Transaction.t),
             current_meeting y = Some mtg →
             trans_liststore y = t0 :: rest0 →
             ∃ fetched,
               trans_liststore (snd (load_more_transactions D n y))
               = rev fetched ++ t0 :: rest0
               ∧ current_meeting (snd (load_more_transactions D n y)) = Some mtg
               ∧ (length fetched ≤ Z.to_nat n)%nat
               ∧ followed D mtg t0 fetched
               ∧ match fst (load_more_transactions D n y) with
                 | Ok _ =>
                     (length fetched < Z.to_nat n)%nat →
                     Transaction.prev (List.last fetched t0) = 0
                 | Raise e =>
                     Transaction.prev (List.last fetched t0) ≠ 0
                     ∧ ∃ e', fetch D (Meeting.id mtg)
                                   (Transaction.prev (List.last fetched t0)) = inl e'
                             ∧ e = Remote e'
                 end).
  { intros n y t0 rest0 Hm Hs. unfold load_more_transactions. rewrite Hs.
    destruct (load_more_loop D (xrange 0 n 1) t0 (ui_debug (UiLoading n) y))
      as [r y'] eqn:Hrun.
    apply (load_more_loop_spec mtg) in Hrun as (fetched & H1 & H2 & H3 & H4 & H5);
      [|exact Hm].
    exists fetched. simpl in H1. rewrite Hs in H1.
    rewrite length_xrange_up in H3, H5.
    replace (n - 0) with n in H3, H5 by lia. simpl. auto. }
  destruct (Hgen num x t rest Hmtg Hstore) as (fetched & H1 & H2 & H3 & H4 & H5).
  exists fetched.
  assert (Hstart : Transaction.prev t = 0 → fetched = []).
  { intros Hz. destruct fetched as [|a l]; [reflexivity|].
    simpl in H4. destruct H4 as [Hnz _]. contradiction. }
  split; [exact H1|]. split; [exact H3|]. split; [exact H4|].
  split; [|split; [|split; [|split; [exact Hstart|]]]].
  - intros Hz. destruct (fst (load_more_transactions D num x)) as [[]|e];
      [reflexivity|]. destruct H5 as [Hnz _]. contradiction.
  - intros Hok. rewrite Hok in H5. exact H5.
  - intros Hne. destruct (fst (load_more_transactions D num x)) as [[]|e];
      [contradiction|]. destruct H5 as (_ & e' & Hf & ->). eauto.
  - intros Hz num'. cbv zeta.
    assert (Hhd : ∃ rest', trans_liststore (snd (load_more_transactions D num x))
                           = List.last fetched t :: rest').
    { rewrite H1. clear. induction fetched as [|a l IHl] using rev_ind.
      - simpl. eauto.
      - rewrite rev_app_distr, last_last. simpl. eauto. }
    destruct Hhd as (rest' & Hhd).
    destruct (Hgen num' _ _ _ H2 Hhd) as (fetched' & G1 & _ & _ & G4 & G5).
    assert (fetched' = []) as ->.
    { destruct fetched' as [|a l]; [reflexivity|].
      simpl in G4. destruct G4 as [Hnz _]. contradiction. }
    simpl in G1, G5. split.
    + destruct (fst (load_more_transactions D num' _)) as [[]|e];
        [reflexivity|]. destruct G5 as [Hnz _]. contradiction.
    + rewrite G1, Hhd. reflexivity.
Qed.

(** *** The scan of the registry *)

Lemma load_and_cache_attend (conn : nat) (m : Location) (s : State) :
  coherent D s →
  connect D (fst m) = None →
  (match check_update D m 0 with
   | inl e => e = DiscussError NO_SUCH_TRN
   | inr _ => True
   end) →
  let out := load_and_cache D conn m s in
  coherent D (snd out)
  ∧ rcfile (snd out) = rcfile s
  ∧ dialogs (snd out) = dialogs s
  ∧ match attend D m with
    | inl e => fst out = Raise (Remote e)
    | inr info =>
        ∃ mtg, fst out = Ok mtg ∧ Meeting.long_name mtg = Info.long_name info
    end.
Proof.
  intros [Hconn Hmtg] Hc Hprobe. cbv zeta.
  assert (Hatt : attend D m = load_info D m).
  { unfold attend. rewrite Hc.
    destruct (check_update D m 0) as [e|b]; [|reflexivity].
    rewrite decide_True by exact Hprobe. reflexivity. }
  unfold load_and_cache. rewrite Hatt.
  destruct (load_info D m) as [e|info] eqn:Hload; simpl.
  - repeat split; auto.
  - repeat split; auto.
    + intros loc mtg. simpl. rewrite lookup_insert. case_decide as Hloc.
      * intros Heq. injection Heq as <-. subst loc. exists info.
        rewrite Hatt. auto.
      * apply Hmtg.
    + eexists. split; reflexivity.
Qed.

(** In a coherent state [get_meeting] of a registry key comes to what
    [attend] says, whether or not the caches are used, and it leaves the
    state coherent and the registry alone. *)
Lemma get_meeting_attend (m : Location) (s : State) :
  coherent D s →
  lookup_name (rcfile s) (inr m) = Some m →
  let out := get_meeting D (inr m) s in
  coherent D (snd out)
  ∧ rcfile (snd out) = rcfile s
  ∧ dialogs (snd out) = dialogs s
  ∧ match attend D m with
    | inl e => fst out = Raise (Remote e)
    | inr info =>
        ∃ mtg, fst out = Ok mtg ∧ Meeting.long_name mtg = Info.long_name info
    end.
Proof.
  intros Hco Hname. cbv zeta. rewrite get_meeting_eq. cbv zeta. rewrite Hname.
  destruct (meetingcache s !! m) as [mtg|] eqn:Hcached.
  { simpl. split; [exact Hco|]. split; [reflexivity|]. split; [reflexivity|].
    destruct Hco as [_ Hmtg]. destruct (Hmtg _ _ Hcached) as (info & -> & Hn).
    eauto. }
  rewrite _get_connection_eq. cbn [connectioncache with_dslog].
  assert (Hstep : ∀ (conn : nat) (s1 : State),
            coherent D s1 → connect D (fst m) = None →
            rcfile s1 = rcfile s → dialogs s1 = dialogs s →
            let out :=
              match check_update D m 0 with
              | inl e =>
                  if decide (e = DiscussError NO_SUCH_TRN)
                  then load_and_cache D conn m
                         (with_rpc_log (fun l => l ++ [RpcCheckUpdate m 0]) s1)
                  else (Raise (Remote e),
                        with_rpc_log (fun l => l ++ [RpcCheckUpdate m 0]) s1)
              | inr _ =>
                  load_and_cache D conn m
                    (with_rpc_log (fun l => l ++ [RpcCheckUpdate m 0]) s1)
              end in
            coherent D (snd out)
            ∧ rcfile (snd out) = rcfile s
            ∧ dialogs (snd out) = dialogs s
            ∧ match attend D m with
              | inl e => fst out = Raise (Remote e)
              | inr info =>
                  ∃ mtg, fst out = Ok mtg
                         ∧ Meeting.long_name mtg = Info.long_name info
              end).
  { intros conn s1 Hco1 Hc Hrc Hdl. cbv zeta.
    pose proof (load_and_cache_attend conn m
                  (with_rpc_log (fun l => l ++ [RpcCheckUpdate m 0]) s1)) as Hload.
    cbv zeta in Hload. rewrite <- Hrc, <- Hdl.
    destruct (check_update D m 0) as [e|b] eqn:Hprobe.
    - destruct (decide (e = DiscussError NO_SUCH_TRN)) as [He|He].
      + apply Hload; auto.
      + simpl. repeat split; try apply Hco1.
        unfold attend. rewrite Hc, Hprobe. rewrite decide_False by exact He.
        reflexivity.
    - apply Hload; auto. }
  destruct (connectioncache s !! fst m) as [conn|] eqn:Hcc.
  - apply Hstep; auto. destruct Hco as [Hconn _]. eapply Hconn. exact Hcc.
  - cbv zeta. destruct (connect D (fst m)) as [e|] eqn:Hc.
    + simpl. split; [exact Hco|]. repeat split.
      unfold attend. rewrite Hc. reflexivity.
    + apply Hstep; auto.
      destruct Hco as [Hconn Hmtg]. split; [|exact Hmtg].
      intros host conn. simpl. rewrite lookup_insert. case_decide as Hh.
      * intros _. subst host. exact Hc.
      * apply Hconn.
Qed.

Lemma alter_Some_insert {A} (f : A → A) (k : Location) (x : A)
    (es : gmap Location A) :
  es !! k = Some x → alter f k es = <[k := f x]> es.
Proof.
  intros Hk. apply map_eq. intros j. rewrite lookup_alter, lookup_insert.
  case_decide as Hj; [|reflexivity]. subst j. rewrite Hk. reflexivity.
Qed.

Lemma checked_names (m : Location) (e : Entry.t) :
  Entry.names e ≠ [] → Entry.names (checked D m e) ≠ [].
Proof.
  intros Hne. unfold checked. destruct (Entry.deleted e); [exact Hne|].
  destruct (attend D m) as [err|info].
  - destruct (quarantined D m); exact Hne.
  - destruct (Entry.names e) as [|name0 l] eqn:Hn; [contradiction|].
    case_decide; [rewrite Hn; discriminate|]. simpl. discriminate.
Qed.

Lemma checked_deleted (m : Location) (e : Entry.t) :
  Entry.deleted (checked D m e) = Entry.deleted e || quarantined D m.
Proof.
  unfold checked, quarantined. destruct (Entry.deleted e) eqn:Hdel; [exact Hdel|].
  destruct (attend D m) as [[code| | |]|info]; simpl.
  - destruct (bool_decide (code = NO_SUCH_MTG)); simpl; auto.
  - exact Hdel.
  - reflexivity.
  - exact Hdel.
  - destruct (Entry.names e) as [|name0 l]; [exact Hdel|].
    case_decide; simpl; exact Hdel.
Qed.

Lemma checked_last_transaction (m : Location) (e : Entry.t) :
  Entry.last_transaction (checked D m e) = Entry.last_transaction e.
Proof.
  unfold checked. destruct (Entry.deleted e); [reflexivity|].
  destruct (attend D m) as [err|info].
  - destruct (quarantined D m); reflexivity.
  - destruct (Entry.names e) as [|name0 l]; [reflexivity|].
    case_decide; reflexivity.
Qed.

Lemma report_quarantined (m : Location) (e : Entry.t) :
  Entry.deleted e = false → quarantined D m = true →
  ∃ d, report D m e = [d].
Proof.
  unfold report, quarantined. intros -> Hq.
  destruct (attend D m) as [[code| | |]|info]; try discriminate.
  - apply bool_decide_eq_true_1 in Hq. rewrite decide_True by exact Hq. eauto.
  - eauto.
Qed.

Lemma keys_of_entries (es : gmap Location Entry.t) (m : Location) :
  m ∈ (map_to_list es).*1 ↔ is_Some (es !! m).
Proof.
  rewrite list_elem_of_fmap. split.
  - intros ([m' e] & -> & Hin). apply elem_of_map_to_list in Hin. eauto.
  - intros [e He]. exists (m, e). split; [reflexivity|].
    apply elem_of_map_to_list. exact He.
Qed.

End Properties.

(** ** The properties on the sample service *)

Lemma sample_registered (c : Z) :
  registered (Sample.registry c) Sample.meeting0.
Proof. split; [reflexivity|]. eexists. reflexivity. Qed.

Lemma sample_cursor (c : Z) :
  cursor_is (Sample.registry c) Sample.meeting0 c.
Proof. split; reflexivity. Qed.



(** C1: the stale-cursor scenario.  The cursor is 25, beyond
    [last = 20], and transaction 20 is there to be fetched; the call
    ends in the [AttributeError] of the missing [go_to_transaction],
    with nothing fetched and the state as it was. *)
Theorem find_next_valid_stale_cursor_raises :
  fetch Sample.service Sample.loc0 20 = inr (Sample.trn 20)
  ∧ find_next_valid_transaction Sample.service Sample.meeting0 false
      (Sample.fresh (Sample.registry 25))
    = (Raise (AttributeError "go_to_transaction"),
       Sample.fresh (Sample.registry 25)).
Proof.
  split; [reflexivity|].
  apply (find_next_valid_at_boundary Sample.service Sample.meeting0 false
           (Sample.fresh (Sample.registry 25)) 25).
  - apply sample_cursor.
  - simpl. lia.
Qed.

(** C3: a cursor within [[first, last]] that sits on the boundary of
    the walk.  Forward from [last = 20] and backward from [first = 5]
    the range to walk is empty, yet the call does not return [None]: it
    ends in the [AttributeError] of the missing [go_to_transaction]. *)
Theorem find_next_valid_cursor_on_boundary_raises :
  xrange (20 + 1) (Meeting.last Sample.meeting0 + 1) 1 = []
  ∧ fst (find_next_valid_transaction Sample.service Sample.meeting0 false
           (Sample.fresh (Sample.registry 20)))
    = Raise (AttributeError "go_to_transaction")
  ∧ xrange (5 + -1) (Meeting.first Sample.meeting0 + -1) (-1) = []
  ∧ fst (find_next_valid_transaction Sample.service Sample.meeting0 true
           (Sample.fresh (Sample.registry 5)))
    = Raise (AttributeError "go_to_transaction").
Proof.
  split; [reflexivity|]. split.
  - rewrite (find_next_valid_at_boundary Sample.service Sample.meeting0 false
               (Sample.fresh (Sample.registry 20)) 20 (sample_cursor 20));
      [reflexivity|simpl; lia].
  - split; [reflexivity|].
    rewrite (find_next_valid_at_boundary Sample.service Sample.meeting0 true
               (Sample.fresh (Sample.registry 5)) 5 (sample_cursor 5));
      [reflexivity|simpl; lia].
Qed.

(** The scenario of the specification for the walk itself: numbers 10
    to 12 deleted, cursor at 9, forward: transaction 13 is returned. *)
Example find_next_valid_skips_deleted :
  fst (find_next_valid_transaction Sample.service Sample.meeting0 false
         (Sample.fresh (Sample.registry 9)))
  = Ok (Some (Sample.trn 13)).
Proof. vm_compute. reflexivity. Qed.

(** C2, as stated, fails at number 3 of the sample meeting: 3 is below
    [first = 5], yet [get_transaction] raises no range error; it sends
    the fetch and passes on the service's [DELETED_TRN]. *)
Lemma get_transaction_below_first_is_fetched :
  (3 < Meeting.first Sample.meeting0 ∨ Meeting.last Sample.meeting0 < 3)
  ∧ fst (get_transaction Sample.service Sample.meeting0 3 true
           (Sample.fresh (Sample.registry 9)))
    = Raise (Remote (DiscussError DELETED_TRN))
  ∧ fst (get_transaction Sample.service Sample.meeting0 3 true
           (Sample.fresh (Sample.registry 9)))
    ≠ Raise ValueError.
Proof.
  split; [left; simpl; lia|]. split; [vm_compute; reflexivity|].
  vm_compute. discriminate.
Qed.

(** C5: [add_meeting] after the getter has connected.  The getter has
    constructed handle 0 for ["host"], with the wrapper's timeout, and
    cached it; [get_meeting] on that host takes the cached handle and
    constructs nothing; [add_meeting] on the same host constructs a
    second client for it, without timeout, which the cache never
    sees. *)
Theorem add_meeting_constructs_second_handle :
  let s1 := snd (_get_connection Sample.service "host"
                   (Sample.fresh (Sample.registry 9))) in
  let s2 := snd (add_meeting Sample.service "host" "/new" s1) in
  clients s1 = [Client.mk "host" (Some 3)]
  ∧ connectioncache s1 !! "host"%string = Some 0%nat
  ∧ clients (snd (get_meeting Sample.service (inl "long"%string) s1))
    = clients s1
  ∧ fst (add_meeting Sample.service "host" "/new" s1) = Ok tt
  ∧ clients s2 = [Client.mk "host" (Some 3); Client.mk "host" None]
  ∧ connectioncache s2 = connectioncache s1
  ∧ rpc_log s2 = [RpcConnect "host"; RpcConnect "host"].
Proof. vm_compute. repeat split; reflexivity. Qed.

(** C4, as stated, fails on the service that has retrieved transaction
    3: with the cursor at 1 the forward walk tries 2, which is deleted,
    and returns transaction 3, below [first = 5]. *)
Lemma find_next_valid_returns_below_first :
  fst (find_next_valid_transaction Stale.service Sample.meeting0 false
         (Sample.fresh (Sample.registry 1)))
  = Ok (Some (Sample.trn 3))
  ∧ Transaction.current (Sample.trn 3) = 3
  ∧ ¬ (Meeting.first Sample.meeting0 ≤ 3 ≤ Meeting.last Sample.meeting0).
Proof.
  split; [vm_compute; reflexivity|]. split; [reflexivity|].
  simpl. lia.
Qed.

Lemma find_next_valid_in_valid_range_witness :
  let s := Sample.fresh (Sample.registry 9) in
  let s' := snd (find_next_valid_transaction Sample.service Sample.meeting0
                   false s) in
  find_next_valid_transaction Sample.service Sample.meeting0 false s
  = (Ok (Some (Sample.trn 13)), s')
  ∧ ∃ (c t : Z) (skipped : list Z),
      _last_read_transaction Sample.meeting0 s = (Ok c, s)
      ∧ fetch Sample.service (Meeting.id Sample.meeting0) t
        = inr (Sample.trn 13)
      ∧ Meeting.lowest Sample.meeting0 ≤ t ≤ Meeting.highest Sample.meeting0
      ∧ c < t ≤ Meeting.last Sample.meeting0
      ∧ tried (dslog s') = tried (dslog s) ++ skipped ++ [t]
      ∧ Forall (skips Sample.service Sample.meeting0) skipped
      ∧ ¬ In t skipped.
Proof.
  intros s s'. split; [vm_compute; reflexivity|].
  exact (find_next_valid_in_valid_range Sample.service Sample.meeting0 false
           s s' (Sample.trn 13) eq_refl).
Defined.

Lemma twin_registry_ok : registry_ok Twin.registry.
Proof.
  unfold registry_ok.
  change (map_Forall (fun m e => lookup_name Twin.registry (inr m) = Some m
                                 ∧ Entry.names e ≠ [])
            (entries Twin.registry)).
  apply map_Forall_to_list.
  remember (map_to_list (entries Twin.registry)) as l eqn:El.
  vm_compute in El. subst l.
  repeat (apply Forall_cons; split;
          [split; [vm_compute; reflexivity|discriminate]|]).
  apply Forall_nil. exact I.
Qed.

(** C9: two registry entries with the same long name.  The meeting at
    [Sample.loc0] is obtained as [check_meetings] obtains it, by its
    registry key.  [touch_meeting] records transaction 17 in the
    meeting's own entry, and [_last_read_transaction] of the same
    meeting then returns 4, the cursor of the other entry, to which the
    index resolves the long name.  On the registry with the one sample
    meeting, for the meeting object whose long name has changed, the
    query after [touch_meeting] of 17 raises [KeyError]. *)
Theorem record_view_then_last_read_other_entry :
  let s0 := Sample.fresh Twin.registry in
  let s := snd (get_meeting Twin.service (inr Sample.loc0) s0) in
  let s1 := snd (touch_meeting Sample.meeting0 (Sample.trn 17) s) in
  let s2 := snd (touch_meeting Renamed.meeting (Sample.trn 17)
                   (Sample.fresh (Sample.registry 9))) in
  fst (get_meeting Twin.service (inr Sample.loc0) s0) = Ok Sample.meeting0
  ∧ fst (touch_meeting Sample.meeting0 (Sample.trn 17) s) = Ok tt
  ∧ Entry.last_transaction <$> entries (rcfile s1) !! Sample.loc0 = Some 17
  ∧ lookup_name (rcfile s1) (inl (Meeting.long_name Sample.meeting0))
    = Some Twin.loc
  ∧ fst (_last_read_transaction Sample.meeting0 s1) = Ok 4
  ∧ Entry.last_transaction <$> entries (rcfile s2) !! Sample.loc0 = Some 17
  ∧ fst (_last_read_transaction Renamed.meeting s2) = Raise KeyError.
Proof. vm_compute. repeat split; reflexivity. Qed.

(** C10: the same registry.  [find_next_valid_transaction] forward
    returns transaction 5 and records it in the meeting's own entry,
    yet the last-read query of the same meeting right after it returns
    4, not 5. *)
Theorem find_next_valid_view_not_read_back :
  let s0 := Sample.fresh Twin.registry in
  let s := snd (get_meeting Twin.service (inr Sample.loc0) s0) in
  let out := find_next_valid_transaction Twin.service Sample.meeting0 false s in
  fst out = Ok (Some (Sample.trn 5))
  ∧ Entry.last_transaction <$> entries (rcfile (snd out)) !! Sample.loc0
    = Some 5
  ∧ fst (_last_read_transaction Sample.meeting0 (snd out)) = Ok 4.
Proof. vm_compute. repeat split; reflexivity. Qed.

(** C7: a meeting on a host that refuses the connection.  The scan
    meets that meeting first; the [socket.error] of the connection is
    named by no [except] clause and leaves [check_meetings].  The
    meeting that no longer exists, which its own turn would have
    flagged, is never examined and stays unflagged; no warning is shown
    and nothing is written. *)
Theorem check_meetings_refused_connection_aborts :
  let s := Sample.fresh Refused.registry in
  let out := check_meetings Refused.service s in
  (map_to_list (meetings s)).*1 = [Refused.loc; Sample.loc2; Sample.loc0]
  ∧ connect Refused.service (fst Refused.loc) = Some socket_error
  ∧ fst out = Raise (Remote socket_error)
  ∧ quarantined Refused.service Sample.loc2 = true
  ∧ Entry.deleted <$> entries (rcfile (snd out)) !! Sample.loc2 = Some false
  ∧ rpc_log (snd out) = [RpcConnect "closed"]
  ∧ dialogs (snd out) = []
  ∧ rcfile (snd out) = rcfile s.
Proof. vm_compute. repeat split; reflexivity. Qed.

Lemma get_meeting_uncached_witness :
  lookup_name (rcfile (Sample.fresh (Sample.registry 9))) (inl "long"%string)
  = Some Sample.loc0
  ∧ meetingcache (Sample.fresh (Sample.registry 9)) !! Sample.loc0 = None
  ∧ fst (get_meeting Sample.service (inl "long"%string)
           (Sample.fresh (Sample.registry 9)))
    = Ok Sample.meeting0
  ∧ rpc_log (snd (get_meeting Sample.service (inl "long"%string)
                    (Sample.fresh (Sample.registry 9))))
    = [RpcConnect "host"; RpcCheckUpdate Sample.loc0 0; RpcLoadInfo Sample.loc0]
  ∧ get_meeting Sample.service (inl "short"%string)
      (snd (get_meeting Sample.service (inl "long"%string)
              (Sample.fresh (Sample.registry 9))))
    = (Ok Sample.meeting0,
       with_dslog (fun l => l ++ [LogGetMeeting (inl "short"%string)])
         (snd (get_meeting Sample.service (inl "long"%string)
                 (Sample.fresh (Sample.registry 9))))).
Proof.
  split; [reflexivity|]. split; [reflexivity|].
  pose proof (get_meeting_uncached Sample.service (inl "long"%string)
                Sample.loc0 (Sample.fresh (Sample.registry 9))
                eq_refl eq_refl) as H.
  cbv zeta in H.
  change (_get_connection Sample.service (fst Sample.loc0)
            (with_dslog (fun l => l ++ [LogGetMeeting (inl "long"%string)])
               (Sample.fresh (Sample.registry 9))))
    with (Ok 0%nat,
          snd (_get_connection Sample.service (fst Sample.loc0)
                 (with_dslog (fun l => l ++ [LogGetMeeting (inl "long"%string)])
                    (Sample.fresh (Sample.registry 9))))) in H.
  cbv iota beta in H.
  change (check_update Sample.service Sample.loc0 0)
    with (@inl RemoteError bool (DiscussError NO_SUCH_TRN)) in H.
  cbv iota beta in H.
  change (load_info Sample.service Sample.loc0)
    with (@inr RemoteError Info.t Sample.info0) in H.
  rewrite decide_True in H by reflexivity.
  destruct H as (H1 & _ & H3 & H4).
  split; [exact H1|]. split; [exact H3|].
  apply H4. reflexivity.
Defined.

Lemma load_more_transactions_extends_witness :
  let x := mkXdsc (Sample.fresh (Sample.registry 15)) (Some Sample.meeting0)
                  [Sample.trn 15; Sample.trn 16] [] in
  current_meeting x = Some Sample.meeting0
  ∧ trans_liststore x = Sample.trn 15 :: [Sample.trn 16]
  ∧ ∃ fetched : list Transaction.t,
      trans_liststore (snd (load_more_transactions Sample.service 100 x))
      = rev fetched ++ Sample.trn 15 :: [Sample.trn 16]
      ∧ (length fetched ≤ Z.to_nat 100)%nat
      ∧ followed Sample.service Sample.meeting0 (Sample.trn 15) fetched
      ∧ (Transaction.prev (List.last fetched (Sample.trn 15)) = 0 →
         fst (load_more_transactions Sample.service 100 x) = Ok tt)
      ∧ (fst (load_more_transactions Sample.service 100 x) = Ok tt →
         (length fetched < Z.to_nat 100)%nat →
         Transaction.prev (List.last fetched (Sample.trn 15)) = 0)
      ∧ (fst (load_more_transactions Sample.service 100 x) ≠ Ok tt →
         ∃ e, fetch Sample.service (Meeting.id Sample.meeting0)
                (Transaction.prev (List.last fetched (Sample.trn 15))) = inl e
              ∧ fst (load_more_transactions Sample.service 100 x)
                = Raise (Remote e))
      ∧ (Transaction.prev (Sample.trn 15) = 0 → fetched = [])
      ∧ (Transaction.prev (List.last fetched (Sample.trn 15)) = 0 →
         ∀ num',
           let again := load_more_transactions Sample.service num'
                          (snd (load_more_transactions Sample.service 100 x)) in
           fst again = Ok tt
           ∧ trans_liststore (snd again)
             = trans_liststore (snd (load_more_transactions Sample.service 100 x))).
Proof.
  intros x. split; [reflexivity|]. split; [reflexivity|].
  exact (load_more_transactions_extends Sample.service 100 x Sample.meeting0
           (Sample.trn 15) [Sample.trn 16] eq_refl eq_refl).
Defined.

(** The scenario of the specification for the window: 100 more asked
    for, seven left before the start of the meeting (14, 13, 9 to 5):
    exactly those are loaded, without error. *)
Example load_more_transactions_to_start :
  let x := mkXdsc (Sample.fresh (Sample.registry 15)) (Some Sample.meeting0)
                  [Sample.trn 15; Sample.trn 16] [] in
  fst (load_more_transactions Sample.service 100 x) = Ok tt
  ∧ map Transaction.current
        (trans_liststore (snd (load_more_transactions Sample.service 100 x)))
    = [5; 6; 7; 8; 9; 13; 14; 15; 16].
Proof. vm_compute. split; reflexivity. Qed.

(** The scan on the sample registry: the meeting on the silent host and
    the one that no longer exists are flagged and reported, the first is
    left as it was, and the scan ends normally. *)
Example check_meetings_on_sample :
  let out := check_meetings Sample.service (Sample.fresh Sample.registry3) in
  fst out = Ok tt
  ∧ Entry.deleted <$> entries (rcfile (snd out)) !! Sample.loc0 = Some false
  ∧ Entry.deleted <$> entries (rcfile (snd out)) !! Sample.loc1 = Some true
  ∧ Entry.deleted <$> entries (rcfile (snd out)) !! Sample.loc2 = Some true
  ∧ length (dialogs (snd out)) = 2%nat.
Proof. vm_compute. repeat split; reflexivity. Qed.

(** ** Further properties of DiscussWrapper *)

Section WrapperMoreProperties.

Variable D : Discuss.

(** X1: [delete_meeting] of a name that resolves to no location raises
    [ValueError], of one that resolves to a location without entry
    raises [KeyError], and in both cases nothing changes.  Otherwise it
    removes the entry of that location and no other from the registry in
    memory and then writes the meetings file: when the write succeeds
    the file holds the remaining entries and the index is rebuilt from
    them; when it fails the call raises [PersistError] with the entry
    gone from memory, the file as it was and the index not rebuilt.
    Both caches and the service are left alone throughout. *)
Theorem delete_meeting_effect (meeting : MeetingKey) (s : State) :
  let out := delete_meeting D meeting s in
  match lookup_name (rcfile s) meeting with
  | None => out = (Raise ValueError, s)
  | Some loc =>
      match entries (rcfile s) !! loc with
      | None => out = (Raise KeyError, s)
      | Some _ =>
          entries (rcfile (snd out)) = delete loc (entries (rcfile s))
          ∧ entries (rcfile (snd out)) !! loc = None
          ∧ (∀ loc', loc' ≠ loc →
               entries (rcfile (snd out)) !! loc' = entries (rcfile s) !! loc')
          ∧ meetingcache (snd out) = meetingcache s
          ∧ connectioncache (snd out) = connectioncache s
          ∧ rpc_log (snd out) = rpc_log s
          ∧ if rcfile_save_fails D (delete loc (entries (rcfile s))) then
              fst out = Raise PersistError
              ∧ saved (rcfile (snd out)) = saved (rcfile s)
              ∧ cache (rcfile (snd out)) = cache (rcfile s)
              ∧ dirty (rcfile (snd out)) = dirty (rcfile s)
            else
              fst out = Ok tt
              ∧ saved (rcfile (snd out)) = entries (rcfile (snd out))
              ∧ cache (rcfile (snd out))
                = rcfile_index D (entries (rcfile (snd out)))
              ∧ dirty (rcfile (snd out)) = false
      end
  end.
Proof.
  cbv zeta. unfold delete_meeting.
  destruct (lookup_name (rcfile s) meeting) as [loc|]; [|reflexivity].
  destruct (entries (rcfile s) !! loc) as [e|]; [|reflexivity].
  unfold bind, modify, rcfile_save, save. cbn [rcfile with_rcfile entries].
  destruct (rcfile_save_fails D (delete loc (entries (rcfile s)))); simpl.
  - split; [reflexivity|]. split; [apply lookup_delete_eq|].
    split; [|auto 10]. intros loc' Hne. apply lookup_delete_ne. congruence.
  - split; [reflexivity|]. split; [apply lookup_delete_eq|].
    split; [|auto 10]. intros loc' Hne. apply lookup_delete_ne. congruence.
Qed.

(** What [meeting_has_changed] does once the cursor [c] is known. *)
Lemma meeting_has_changed_eq (m : Meeting.t) (c : Z) (s : State) :
  cursor_is (rcfile s) m c →
  meeting_has_changed D m s =
  (match check_update D (Meeting.id m) c with
   | inr changed => Ok changed
   | inl e => Raise (Remote e)
   end,
   with_rpc_log (fun l => l ++ [RpcCheckUpdate (Meeting.id m) c]) s).
Proof.
  intros Hc. unfold meeting_has_changed, bind.
  rewrite (last_read_of_cursor m c s Hc).
  unfold Meeting_check_update, rpc.
  destruct (check_update D (Meeting.id m) c); reflexivity.
Qed.

(** X2: once [get_transaction] with [updateLast] has returned a
    transaction of a registered meeting, [meeting_has_changed] asks the
    service exactly one question, [check_update] relative to that
    transaction's number, passes its answer or error on, and changes
    nothing else. *)
Theorem viewing_moves_the_unread_probe (m : Meeting.t) (n : Z)
    (s s' : State) (trn : Transaction.t) :
  registered (rcfile s) m →
  get_transaction D m n true s = (Ok trn, s') →
  meeting_has_changed D m s' =
  (match check_update D (Meeting.id m) (Transaction.current trn) with
   | inr changed => Ok changed
   | inl e => Raise (Remote e)
   end,
   with_rpc_log
     (fun l => l ++ [RpcCheckUpdate (Meeting.id m) (Transaction.current trn)])
     s').
Proof.
  intros Hreg Hget. rewrite get_transaction_eq in Hget. cbv zeta in Hget.
  destruct ((n <? Meeting.lowest m) || (Meeting.highest m <? n));
    [discriminate|].
  destruct (fetch D (Meeting.id m) n) as [e|trn']; [discriminate|].
  injection Hget as <- <-.
  apply meeting_has_changed_eq. simpl. apply cursor_after_touch. exact Hreg.
Qed.

Lemma xrange_up_head (a b : Z) : a < b → ∃ rest, xrange a b 1 = a :: rest.
Proof.
  intros Hab. rewrite xrange_up.
  replace (Z.to_nat (b - a)) with (S (Z.to_nat (b - a - 1))) by lia.
  simpl. eexists. f_equal. lia.
Qed.

Lemma xrange_down_head (a b : Z) : b < a → ∃ rest, xrange a b (-1) = a :: rest.
Proof.
  intros Hab. rewrite xrange_down.
  replace (Z.to_nat (a - b)) with (S (Z.to_nat (a - b - 1))) by lia.
  simpl. eexists. f_equal. lia.
Qed.

(** X3: when the first number of the walk lies outside
    [[lowest, highest]] (a stored cursor more than one below [lowest]
    walking forward, or more than one above [highest] walking
    backward), [find_next_valid_transaction] does not skip toward the
    valid range: the [ValueError] of [get_transaction] for that first
    number leaves the loop, with nothing fetched and the registry as it
    was. *)
Theorem find_next_valid_outside_numbering (m : Meeting.t) (backwards : bool)
    (s : State) (c : Z) :
  cursor_is (rcfile s) m c →
  (if backwards then Meeting.first m < c ∧ Meeting.highest m < c - 1
   else c < Meeting.last m ∧ c + 1 < Meeting.lowest m) →
  let out := find_next_valid_transaction D m backwards s in
  fst out = Raise ValueError
  ∧ rcfile (snd out) = rcfile s
  ∧ rpc_log (snd out) = rpc_log s.
Proof.
  intros Hc Hout. cbv zeta.
  rewrite (find_next_valid_eq D m backwards s c)
    by (apply last_read_of_cursor; exact Hc).
  destruct backwards.
  - destruct Hout as [Hf Hh].
    destruct (Z.leb_spec c (Meeting.first m)); [lia|].
    destruct (xrange_down_head (c + -1) (Meeting.first m + -1)) as [rest ->];
      [lia|].
    cbn [find_loop]. unfold bind, debug, modify.
    rewrite get_transaction_eq. cbv zeta.
    assert (Hb : (c + -1 <? Meeting.lowest m) || (Meeting.highest m <? c + -1)
                 = true).
    { apply orb_true_iff. right. apply Z.ltb_lt. lia. }
    rewrite Hb. simpl. auto.
  - destruct Hout as [Hl Hlow].
    destruct (Z.leb_spec (Meeting.last m) c); [lia|].
    destruct (xrange_up_head (c + 1) (Meeting.last m + 1)) as [rest ->];
      [lia|].
    cbn [find_loop]. unfold bind, debug, modify.
    rewrite get_transaction_eq. cbv zeta.
    assert (Hb : (c + 1 <? Meeting.lowest m) || (Meeting.highest m <? c + 1)
                 = true).
    { apply orb_true_iff. left. apply Z.ltb_lt. lia. }
    rewrite Hb. simpl. auto.
Qed.

(** X4: when [get_meeting] fails after the host accepted the
    connection (the probe or the load raised), the meeting is not
    cached but the connection is; a second call for the same name fails
    in the same way without connecting again or constructing a
    client. *)
Theorem get_meeting_retry_keeps_connection (name : MeetingKey) (loc : Location)
    (s s1 : State) (e : exn) :
  lookup_name (rcfile s) name = Some loc →
  meetingcache s !! loc = None →
  connect D (fst loc) = None →
  get_meeting D name s = (Raise e, s1) →
  is_Some (connectioncache s1 !! fst loc)
  ∧ meetingcache s1 = meetingcache s
  ∧ let again := get_meeting D name s1 in
    fst again = Raise e
    ∧ clients (snd again) = clients s1
    ∧ ∃ sent, rpc_log (snd again) = rpc_log s1 ++ sent
              ∧ ¬ In (RpcConnect (fst loc)) sent.
Proof.
  intros Hname Hmiss Hconn Hrun.
  rewrite get_meeting_eq in Hrun. cbv zeta in Hrun.
  rewrite Hname, Hmiss, _get_connection_eq in Hrun.
  cbn [connectioncache with_dslog] in Hrun. cbv zeta in Hrun.
  rewrite Hconn in Hrun.
  set (s0 := with_dslog (fun l => l ++ [LogGetMeeting name]) s) in Hrun.
  assert (Hgen : ∀ (conn : nat) (sa : State),
            connectioncache sa !! fst loc = Some conn →
            meetingcache sa = meetingcache s →
            rcfile sa = rcfile s →
            (match check_update D loc 0 with
             | inl e0 =>
                 if decide (e0 = DiscussError NO_SUCH_TRN)
                 then load_and_cache D conn loc
                        (with_rpc_log (fun l => l ++ [RpcCheckUpdate loc 0]) sa)
                 else (Raise (Remote e0),
                       with_rpc_log (fun l => l ++ [RpcCheckUpdate loc 0]) sa)
             | inr _ =>
                 load_and_cache D conn loc
                   (with_rpc_log (fun l => l ++ [RpcCheckUpdate loc 0]) sa)
             end) = (Raise e, s1) →
            is_Some (connectioncache s1 !! fst loc)
            ∧ meetingcache s1 = meetingcache s
            ∧ fst (get_meeting D name s1) = Raise e
            ∧ clients (snd (get_meeting D name s1)) = clients s1
            ∧ ∃ sent, rpc_log (snd (get_meeting D name s1)) = rpc_log s1 ++ sent
                      ∧ ¬ In (RpcConnect (fst loc)) sent).
  { intros conn sa Hcc Hmc Hrc Hrest.
    assert (Hs1 : connectioncache s1 !! fst loc = Some conn
                  ∧ meetingcache s1 = meetingcache s
                  ∧ rcfile s1 = rcfile s).
    { unfold load_and_cache in Hrest.
      destruct (check_update D loc 0) as [err0|b].
      - destruct (decide (err0 = DiscussError NO_SUCH_TRN)).
        + destruct (load_info D loc); [|discriminate].
          injection Hrest as _ <-. simpl. auto.
        + injection Hrest as _ <-. simpl. auto.
      - destruct (load_info D loc); [|discriminate].
        injection Hrest as _ <-. simpl. auto. }
    destruct Hs1 as (Hcc1 & Hmc1 & Hrc1).
    split; [eauto|]. split; [exact Hmc1|].
    rewrite get_meeting_eq. cbv zeta. rewrite Hrc1, Hname, Hmc1, Hmiss.
    rewrite _get_connection_eq. cbn [connectioncache with_dslog].
    rewrite Hcc1. unfold load_and_cache in *.
    destruct (check_update D loc 0) as [err0|b].
    - destruct (decide (err0 = DiscussError NO_SUCH_TRN)).
      + destruct (load_info D loc) as [err1|info]; [|discriminate].
        injection Hrest as <- _. simpl. split; [reflexivity|].
        split; [reflexivity|].
        exists [RpcCheckUpdate loc 0; RpcLoadInfo loc].
        split; [rewrite <- app_assoc; reflexivity|].
        intros [H|[H|[]]]; discriminate.
      + injection Hrest as <- _. simpl. split; [reflexivity|].
        split; [reflexivity|].
        exists [RpcCheckUpdate loc 0]. split; [reflexivity|].
        intros [H|[]]; discriminate.
    - destruct (load_info D loc) as [err1|info]; [|discriminate].
      injection Hrest as <- _. simpl. split; [reflexivity|].
      split; [reflexivity|].
      exists [RpcCheckUpdate loc 0; RpcLoadInfo loc].
      split; [rewrite <- app_assoc; reflexivity|].
      intros [H|[H|[]]]; discriminate. }
  cbv zeta.
  destruct (connectioncache s !! fst loc) as [conn|] eqn:Hcc.
  - eapply Hgen; [| | |exact Hrun]; [exact Hcc|reflexivity|reflexivity].
  - eapply Hgen; [| | |exact Hrun]; [|reflexivity|reflexivity].
    simpl. apply lookup_insert_eq.
Qed.

End WrapperMoreProperties.

(** ** Further properties of Xdsc *)

Section XdscMoreProperties.

Variable D : Discuss.





(** One turn of the scan: either the failure of attending is of a class
    that no clause names and leaves the scan, with the registry as it
    was, or the turn ends with the flag and the whole registry object
    described by [changes] and [checked]. *)
Lemma check_meeting_full (m : Location) (e : Entry.t) (update : bool) (s : State) :
  coherent D s →
  registry_ok (rcfile s) →
  entries (rcfile s) !! m = Some e →
  ∃ s',
    coherent D s'
    ∧ match aborts D m e with
      | Some err =>
          check_meeting D m update s = (Raise (Remote err), s')
          ∧ rcfile s' = rcfile s
          ∧ dialogs s' = dialogs s
      | None =>
          check_meeting D m update s = (Ok (update || changes D m e), s')
          ∧ rcfile s' =
            mkRCFile (<[m := checked D m e]> (entries (rcfile s)))
                     (cache (rcfile s)) (saved (rcfile s)) (dirty (rcfile s))
          ∧ dialogs s' = dialogs s ++ report D m e
      end.
Proof.
  intros Hco Hok He. destruct (Hok _ _ He) as [Hname Hnames].
  assert (Hentry : entry_of m s = (Ok e, s)).
  { unfold entry_of, meetings. rewrite He. reflexivity. }
  unfold check_meeting, bind. rewrite Hentry.
  unfold aborts, changes, checked, report.
  destruct (Entry.deleted e) eqn:Hdel.
  { exists s. split; [exact Hco|]. unfold ret. rewrite insert_id by exact He.
    rewrite app_nil_r, orb_false_r. destruct (rcfile s). auto. }
  pose proof (get_meeting_attend D m s Hco Hname) as Hatt. cbv zeta in Hatt.
  destruct (get_meeting D (inr m) s) as [r s1]. simpl in Hatt.
  destruct Hatt as (Hco1 & Hrc & Hdl & Hr).
  assert (He1 : entries (rcfile s1) !! m = Some e) by (rewrite Hrc; exact He).
  unfold quarantined.
  destruct (attend D m) as [err|info] eqn:Hattend.
  - subst r. destruct err as [code| | |]; cbn [caught].
    + unfold bind, debug, modify, entry_of, meetings, msg_dialog, set_entry, ret.
      cbn [rcfile with_dslog with_dialogs with_rcfile].
      destruct (decide (code = NO_SUCH_MTG)) as [->|Hcode].
      * cbn [rcfile with_dslog]. rewrite He1.
        rewrite bool_decide_eq_true_2 by reflexivity.
        eexists. split; [|rewrite orb_true_r; split; [reflexivity|]].
        { exact Hco1. }
        simpl. rewrite Hrc, Hdl. split; [|reflexivity].
        rewrite (alter_Some_insert _ _ _ _ He). reflexivity.
      * rewrite bool_decide_eq_false_2 by exact Hcode.
        eexists. split; [|rewrite orb_false_r; split; [reflexivity|]].
        { exact Hco1. }
        simpl. rewrite Hrc, Hdl, app_nil_r, insert_id by exact He.
        destruct (rcfile s). auto.
    + unfold bind, debug, modify, ret.
      eexists. split; [|rewrite orb_false_r; split; [reflexivity|]].
      { exact Hco1. }
      simpl. rewrite Hrc, Hdl, app_nil_r, insert_id by exact He.
      destruct (rcfile s). auto.
    + unfold bind, debug, modify, entry_of, meetings, msg_dialog, set_entry, ret.
      rewrite He1. cbn [rcfile with_dslog with_dialogs with_rcfile].
      eexists. split; [|rewrite orb_true_r; split; [reflexivity|]].
      { exact Hco1. }
      simpl. rewrite Hrc, Hdl. split; [|reflexivity].
      rewrite (alter_Some_insert _ _ _ _ He). reflexivity.
    + exists s1. split; [exact Hco1|]. auto.
  - destruct Hr as (mtg & -> & Hlong).
    unfold check_long_name, bind, entry_of, meetings. rewrite He1.
    destruct (Entry.names e) as [|name0 l] eqn:Hn; [contradiction|].
    rewrite Hlong.
    destruct (decide (Info.long_name info = name0)) as [Heq|Hneq].
    + rewrite bool_decide_eq_true_2 by exact Heq. simpl.
      unfold ret. eexists. split; [|rewrite orb_false_r; split; [reflexivity|]].
      { exact Hco1. }
      rewrite Hrc, Hdl, app_nil_r, insert_id by exact He.
      destruct (rcfile s). auto.
    + rewrite bool_decide_eq_false_2 by exact Hneq. simpl.
      unfold bind, debug, modify, set_entry, ret.
      eexists. split; [|rewrite orb_true_r; split; [reflexivity|]].
      { exact Hco1. }
      simpl. rewrite Hrc, Hdl, app_nil_r. split; [|reflexivity].
      rewrite (alter_Some_insert _ _ _ _ He). reflexivity.
Qed.

Lemma existsb_ext_in' {A} (f g : A → bool) (l : list A) :
  (∀ x, In x l → f x = g x) → existsb f l = existsb g l.
Proof.
  induction l as [|x l IH]; intros H; [reflexivity|]. simpl.
  rewrite (H x) by (left; reflexivity). f_equal.
  apply IH. intros y Hy. apply H. right. exact Hy.
Qed.

Lemma registry_ok_insert_checked (rc : RCFile) (m : Location) (e : Entry.t) :
  registry_ok rc →
  entries rc !! m = Some e →
  registry_ok (mkRCFile (<[m := checked D m e]> (entries rc))
                        (cache rc) (saved rc) (dirty rc)).
Proof.
  intros Hok He m' e'. unfold lookup_name. cbn [entries cache].
  rewrite lookup_insert. case_decide as Hk.
  - intros Heq. injection Heq as <-. subst m'.
    destruct (Hok _ _ He) as [Hn Hne]. split; [exact Hn|].
    apply checked_names. exact Hne.
  - apply Hok.
Qed.

(** [scanned] looks only at the entries of the keys it is given. *)
Lemma scanned_ext (es1 es2 : gmap Location Entry.t) (ms : list Location) :
  (∀ m, m ∈ ms → es1 !! m = es2 !! m) → scanned D es1 ms = scanned D es2 ms.
Proof.
  induction ms as [|m ms IH]; intros Heq; [reflexivity|].
  cbn [scanned]. rewrite (Heq m) by left.
  rewrite IH; [reflexivity|]. intros m' Hm'. apply Heq. right. exact Hm'.
Qed.

Lemma scanned_subset (es : gmap Location Entry.t) (ms : list Location) (m : Location) :
  m ∈ (scanned D es ms).1 → m ∈ ms.
Proof.
  induction ms as [|m0 ms IH]; [intros H; inversion H|].
  cbn [scanned]. destruct (es !! m0 ≫= aborts D m0); [intros H; inversion H|].
  cbn [fst]. intros H. apply elem_of_cons in H as [->|H]; [left|right; auto].
Qed.

(** Without a failure that leaves the scan, every key gets its turn. *)
Lemma scanned_complete (es : gmap Location Entry.t) (ms : list Location) :
  (scanned D es ms).2 = None ↔
  (scanned D es ms).1 = ms ∧ ∀ m, m ∈ ms → es !! m ≫= aborts D m = None.
Proof.
  induction ms as [|m0 ms IH].
  - simpl. split; [|reflexivity]. intros _. split; [reflexivity|].
    intros m Hm. inversion Hm.
  - cbn [scanned]. destruct (es !! m0 ≫= aborts D m0) as [err|] eqn:Hm0.
    + cbn [fst snd]. split; [discriminate|]. intros [Habs _]. discriminate.
    + cbn [fst snd]. rewrite IH. split.
      * intros [-> Hall]. split; [reflexivity|].
        intros m Hm. apply elem_of_cons in Hm as [->|Hm]; auto.
      * intros [Heq Hall]. injection Heq as Heq. split; [exact Heq|].
        intros m Hm. apply Hall. right. exact Hm.
Qed.

(** The loop of the scan, with what it returns and the whole registry
    object it leaves: the turns of [scanned] are taken, and the failure
    it names, if any, leaves the loop. *)
Lemma check_meetings_loop_full (ms : list Location) :
  ∀ (update : bool) (s : State),
    NoDup ms →
    coherent D s →
    registry_ok (rcfile s) →
    (∀ m, m ∈ ms → is_Some (entries (rcfile s) !! m)) →
    ∃ s',
      check_meetings_loop D ms update s
      = (match (scanned D (entries (rcfile s)) ms).2 with
         | Some err => Raise (Remote err)
         | None =>
             Ok (update
                 || existsb (fun m => from_option (changes D m) false
                                                  (entries (rcfile s) !! m)) ms)
         end,
         s')
      ∧ coherent D s'
      ∧ registry_ok (rcfile s')
      ∧ (∀ m, m ∈ (scanned D (entries (rcfile s)) ms).1 →
           entries (rcfile s') !! m = checked D m <$> entries (rcfile s) !! m)
      ∧ (∀ m, m ∉ (scanned D (entries (rcfile s)) ms).1 →
           entries (rcfile s') !! m = entries (rcfile s) !! m)
      ∧ cache (rcfile s') = cache (rcfile s)
      ∧ saved (rcfile s') = saved (rcfile s)
      ∧ dirty (rcfile s') = dirty (rcfile s)
      ∧ dialogs s' =
        dialogs s
        ++ concat (map (fun m => from_option (report D m) []
                                             (entries (rcfile s) !! m))
                       (scanned D (entries (rcfile s)) ms).1).
Proof.
  induction ms as [|m ms IH]; intros update s Hnd Hco Hok Hdom.
  - exists s. simpl. rewrite app_nil_r, orb_false_r.
    split; [reflexivity|]. split; [exact Hco|]. split; [exact Hok|].
    split; [intros m Hm; inversion Hm|]. auto 10.
  - apply NoDup_cons in Hnd as [Hm Hnd].
    destruct (Hdom m) as [e He]; [left|].
    destruct (check_meeting_full m e update s Hco Hok He)
      as (s1 & Hco1 & Hturn).
    cbn [scanned check_meetings_loop]. unfold bind. rewrite He.
    cbn [mbind option_bind].
    destruct (aborts D m e) as [err|].
    { destruct Hturn as (Hrun1 & Hrc1 & Hdl1). exists s1.
      rewrite Hrun1. cbn [fst snd]. split; [reflexivity|].
      split; [exact Hco1|]. rewrite Hrc1. split; [exact Hok|].
      split; [intros m' Hm'; inversion Hm'|].
      simpl. rewrite app_nil_r. auto 10. }
    destruct Hturn as (Hrun1 & Hrc1 & Hdl1).
    assert (Hok1 : registry_ok (rcfile s1)).
    { rewrite Hrc1. apply registry_ok_insert_checked; assumption. }
    assert (Hother : ∀ m', m' ≠ m →
              entries (rcfile s1) !! m' = entries (rcfile s) !! m').
    { intros m' Hne. rewrite Hrc1. cbn [entries].
      apply lookup_insert_ne. congruence. }
    assert (Hdom1 : ∀ m', m' ∈ ms → is_Some (entries (rcfile s1) !! m')).
    { intros m' Hm'. rewrite Hother by (intros ->; contradiction).
      apply Hdom. right. exact Hm'. }
    assert (Hsc : scanned D (entries (rcfile s1)) ms
                  = scanned D (entries (rcfile s)) ms).
    { apply scanned_ext. intros m' Hm'. apply Hother.
      intros ->. contradiction. }
    destruct (IH (update || changes D m e) s1 Hnd Hco1 Hok1 Hdom1)
      as (s2 & Hrun2 & Hco2 & Hok2 & Hin2 & Hout2 & Hc2 & Hs2 & Hd2 & Hdl2).
    rewrite Hsc in Hrun2, Hin2, Hout2, Hdl2.
    assert (Hnotdone : m ∉ (scanned D (entries (rcfile s)) ms).1).
    { intros Hin. apply Hm. eapply scanned_subset. exact Hin. }
    exists s2. cbn [fst snd]. split.
    { rewrite Hrun1, Hrun2.
      destruct (scanned D (entries (rcfile s)) ms).2; [reflexivity|].
      cbn [existsb]. rewrite He. cbn [from_option]. rewrite orb_assoc.
      do 2 f_equal. f_equal. apply existsb_ext_in'.
      intros m' Hm'. rewrite Hother; [reflexivity|].
      intros ->. apply Hm. apply list_elem_of_In. exact Hm'. }
    split; [exact Hco2|]. split; [exact Hok2|].
    split; [|split; [|split; [|split; [|split]]]].
    + intros m' Hm'. apply elem_of_cons in Hm' as [->|Hm'].
      * rewrite Hout2 by exact Hnotdone. rewrite Hrc1. cbn [entries].
        rewrite lookup_insert_eq, He. reflexivity.
      * rewrite Hin2 by exact Hm'.
        rewrite Hother; [reflexivity|].
        intros ->. apply Hnotdone. exact Hm'.
    + intros m' Hm'. apply not_elem_of_cons in Hm' as [Hne Hm'].
      rewrite Hout2 by exact Hm'. apply Hother. exact Hne.
    + rewrite Hc2, Hrc1. reflexivity.
    + rewrite Hs2, Hrc1. reflexivity.
    + rewrite Hd2, Hrc1. reflexivity.
    + rewrite Hdl2, Hdl1. simpl. rewrite He. simpl. rewrite <- app_assoc.
      f_equal. f_equal. f_equal. apply map_ext_in. intros m' Hm'.
      rewrite Hother; [reflexivity|].
      intros ->. apply Hnotdone. apply list_elem_of_In. exact Hm'.
Qed.

(** The whole of [check_meetings] when no failure leaves the scan:
    [changed] says whether some turn flagged or renamed its entry, and
    then the meetings file is written, which may fail. *)
Lemma check_meetings_run (s : State) :
  coherent D s →
  registry_ok (rcfile s) →
  (∀ m e, entries (rcfile s) !! m = Some e → aborts D m e = None) →
  ∃ (s' : State) (changed : bool),
    let failed := changed && rcfile_save_fails D (entries (rcfile s')) in
    let wrote := changed && negb (rcfile_save_fails D (entries (rcfile s'))) in
    check_meetings D s = (if failed then Raise PersistError else Ok tt, s')
    ∧ coherent D s'
    ∧ (changed = true ↔
       ∃ m e, entries (rcfile s) !! m = Some e ∧ changes D m e = true)
    ∧ (∀ m, entries (rcfile s') !! m = checked D m <$> entries (rcfile s) !! m)
    ∧ cache (rcfile s') =
      (if wrote then rcfile_index D (entries (rcfile s'))
       else cache (rcfile s))
    ∧ saved (rcfile s') =
      (if wrote then entries (rcfile s') else saved (rcfile s))
    ∧ dirty (rcfile s') = (if wrote then false else dirty (rcfile s))
    ∧ dialogs s' =
      dialogs s
      ++ concat (map (fun m => from_option (report D m) []
                                           (entries (rcfile s) !! m))
                     (map_to_list (meetings s)).*1).
Proof.
  intros Hco Hok Hnone.
  destruct (check_meetings_loop_full (map_to_list (meetings s)).*1 false s)
    as (s1 & Hrun & Hco1 & _ & Hin & Hout & Hc & Hs & Hd & Hdl).
  { apply NoDup_fst_map_to_list. }
  { exact Hco. }
  { exact Hok. }
  { intros m Hm. apply keys_of_entries in Hm. exact Hm. }
  assert (Hcomplete : (scanned D (entries (rcfile s))
                         (map_to_list (meetings s)).*1).2 = None).
  { apply scanned_complete.
    assert (Hall : ∀ m, m ∈ (map_to_list (meetings s)).*1 →
                        entries (rcfile s) !! m ≫= aborts D m = None).
    { intros m Hm. apply keys_of_entries in Hm as [e He].
      unfold meetings in He. rewrite He. apply (Hnone m e He). }
    split; [|exact Hall].
    clear -Hall. induction ((map_to_list (meetings s)).*1) as [|m ms IH];
      [reflexivity|].
    cbn [scanned]. rewrite (Hall m) by left. cbn [fst]. f_equal.
    apply IH. intros m' Hm'. apply Hall. right. exact Hm'. }
  pose proof (proj1 (proj1 (scanned_complete _ _) Hcomplete)) as Hdone.
  rewrite Hcomplete in Hrun. rewrite Hdone in Hin, Hout, Hdl.
  set (changed := existsb _ _) in Hrun.
  assert (Hall : ∀ m, entries (rcfile s1) !! m
                      = checked D m <$> entries (rcfile s) !! m).
  { intros m. destruct (entries (rcfile s) !! m) as [e|] eqn:He.
    - rewrite Hin, He; [reflexivity|]. apply keys_of_entries.
      unfold meetings. rewrite He. eauto.
    - rewrite Hout, He; [reflexivity|]. intros Hm.
      apply keys_of_entries in Hm. unfold meetings in Hm.
      rewrite He in Hm. destruct Hm as [? ?]. discriminate. }
  assert (Hchanged : changed = true ↔
            ∃ m e, entries (rcfile s) !! m = Some e ∧ changes D m e = true).
  { subst changed. rewrite existsb_exists. split.
    - intros (m & _ & Hm).
      destruct (entries (rcfile s) !! m) as [e|] eqn:He; [|discriminate].
      eauto.
    - intros (m & e & He & Hch). exists m. split.
      + apply list_elem_of_In, keys_of_entries. unfold meetings.
        rewrite He. eauto.
      + rewrite He. exact Hch. }
  unfold check_meetings, bind. rewrite Hrun. simpl.
  destruct changed.
  - unfold rcfile_save, save.
    destruct (rcfile_save_fails D (entries (rcfile s1))) eqn:Hw.
    + exists s1, true. cbv zeta. rewrite Hw. simpl.
      split; [reflexivity|]. split; [exact Hco1|]. split; [exact Hchanged|].
      split; [exact Hall|]. auto.
    + exists (with_rcfile (recache D)
                (with_rcfile
                   (fun _ => mkRCFile (entries (rcfile s1)) (cache (rcfile s1))
                                      (entries (rcfile s1)) false) s1)), true.
      cbv zeta. simpl. rewrite Hw. simpl.
      split; [reflexivity|]. split; [exact Hco1|]. split; [exact Hchanged|].
      split; [exact Hall|]. auto.
  - exists s1, false. cbv zeta. simpl. split; [reflexivity|].
    split; [exact Hco1|]. split; [exact Hchanged|].
    split; [exact Hall|]. auto.
Qed.


(** What holds of the scan for the failures the clauses do name: every
    entry is what its own turn makes of it, flagged exactly when it was
    flagged before or the meeting's own attendance failed with
    [socket.timeout] or [NO_SUCH_MTG], in which case the warning for
    that meeting has been shown; only the write at the end can still
    raise. *)
Lemma check_meetings_quarantines (s : State) :
  coherent D s →
  registry_ok (rcfile s) →
  (∀ m e, entries (rcfile s) !! m = Some e → aborts D m e = None) →
  ∃ r s',
    check_meetings D s = (r, s')
    ∧ (r = Ok tt ∨ r = Raise PersistError)
    ∧ (∀ m e, entries (rcfile s) !! m = Some e →
         ∃ e', entries (rcfile s') !! m = Some e'
               ∧ Entry.deleted e' = Entry.deleted e || quarantined D m
               ∧ Entry.last_transaction e' = Entry.last_transaction e
               ∧ (Entry.deleted e = false → quarantined D m = true →
                  ∃ d, report D m e = [d] ∧ In d (dialogs s'))).
Proof.
  intros Hco Hok Hnone.
  destruct (check_meetings_run s Hco Hok Hnone)
    as (s' & changed & Hrun & _ & _ & Hall & _ & _ & _ & Hdl).
  cbv zeta in Hrun. eexists _, s'. split; [exact Hrun|]. split.
  { destruct (changed && _); auto. }
  intros m e He. exists (checked D m e). rewrite Hall, He.
  split; [reflexivity|]. split; [apply checked_deleted|].
  split; [apply checked_last_transaction|].
  intros Hdel Hq. destruct (report_quarantined D m e Hdel Hq) as (d & Hd).
  exists d. split; [exact Hd|]. rewrite Hdl.
  apply in_or_app. right. apply in_concat.
  exists [d]. split; [|left; reflexivity].
  apply in_map_iff. exists m. split.
  - rewrite He. simpl. exact Hd.
  - apply list_elem_of_In. apply keys_of_entries. unfold meetings.
    rewrite He. eauto.
Qed.



(** The loop of [show_all_activate] under [descending]: fuel no less
    than the [prev] pointer of the oldest transaction is enough, and the
    loop ends either at a transaction with [prev == 0] or at a fetch
    that failed. *)
Lemma show_all_loop_spec (mtg : Meeting.t) (fuel : nat) :
  ∀ (trn : Transaction.t) (g : Gui),
    descending D mtg →
    current_meeting (xdsc g) = Some mtg →
    0 ≤ Transaction.prev trn ≤ Z.of_nat fuel →
    ∃ (r : Result unit) (g' : Gui) (fetched : list Transaction.t),
      show_all_loop D fuel trn g = Some (r, g')
      ∧ trans_liststore (xdsc g') = rev fetched ++ trans_liststore (xdsc g)
      ∧ current_meeting (xdsc g') = Some mtg
      ∧ current_transaction g' = current_transaction g
      ∧ followed D mtg trn fetched
      ∧ match r with
        | Ok _ => Transaction.prev (List.last fetched trn) = 0
        | Raise e =>
            Transaction.prev (List.last fetched trn) ≠ 0
            ∧ ∃ e', fetch D (Meeting.id mtg)
                          (Transaction.prev (List.last fetched trn)) = inl e'
                    ∧ e = Remote e'
        end.
Proof.
  induction fuel as [|fuel IH]; intros trn g Hdesc Hmtg Hprev.
  - assert (Hz : Transaction.prev trn = 0) by lia.
    exists (Ok tt), g, []. simpl. rewrite decide_True by exact Hz. auto 10.
  - destruct (decide (Transaction.prev trn = 0)) as [Hz|Hnz].
    { exists (Ok tt), g, []. simpl. rewrite decide_True by exact Hz. auto 10. }
    cbn [show_all_loop]. rewrite decide_False by exact Hnz. rewrite Hmtg.
    unfold in_discuss, Meeting_get_transaction, rpc.
    destruct (fetch D (Meeting.id mtg) (Transaction.prev trn)) as [e|trn'] eqn:Hf.
    { eexists _, _, []. split; [reflexivity|]. simpl.
      split; [reflexivity|]. split; [exact Hmtg|]. split; [reflexivity|].
      split; [exact I|]. split; [exact Hnz|]. eauto. }
    destruct (Hdesc _ _ Hf) as [Hcur Hp]. cbn [update_status_label].
    match goal with
    | |- context [show_all_loop D fuel trn' ?g3] =>
        destruct (IH trn' g3 Hdesc) as (r & g' & fetched & Hrun & Hst & Hcm & Hct & Hfol & Hr)
    end.
    { simpl. exact Hmtg. }
    { lia. }
    exists r, g', (trn' :: fetched). split; [exact Hrun|].
    split. { rewrite Hst. simpl. rewrite <- app_assoc. reflexivity. }
    split; [exact Hcm|]. split; [rewrite Hct; reflexivity|].
    split. { simpl. auto. }
    assert (Hlast : List.last (trn' :: fetched) trn = List.last fetched trn').
    { destruct fetched as [|a l]; [reflexivity|].
      change (List.last (trn' :: a :: l) trn) with (List.last (a :: l) trn).
      apply last_nonempty_default. }
    rewrite Hlast. exact Hr.
Qed.

(** X7: [show_all_activate] comes to an end whenever the [prev]
    pointers the service hands out descend: fuel no less than the
    [prev] pointer of the oldest row is enough.  It prepends the
    transactions reached by following [prev] and stops only at one with
    [prev == 0] (then setting the status label, which needs a current
    transaction) or at a fetch that failed, whose error it raises with
    the rows prepended so far left in place. *)
Theorem show_all_activate_completes (mtg : Meeting.t) (fuel : nat) (g : Gui)
    (t : Transaction.t) (rest : list Transaction.t) :
  descending D mtg →
  current_meeting (xdsc g) = Some mtg →
  trans_liststore (xdsc g) = t :: rest →
  0 ≤ Transaction.prev t ≤ Z.of_nat fuel →
  ∃ (r : Result unit) (g' : Gui) (fetched : list Transaction.t),
    show_all_activate D fuel g = Some (r, g')
    ∧ trans_liststore (xdsc g') = rev fetched ++ t :: rest
    ∧ followed D mtg t fetched
    ∧ ((Transaction.prev (List.last fetched t) = 0
        ∧ match current_transaction g with
          | Some ct =>
              r = Ok tt
              ∧ status_label g' =
                Some (Reading (Meeting.long_name mtg) (Meeting.first mtg)
                              (Meeting.last mtg)
                              (Some (Transaction.current ct)))
          | None => r = Raise (AttributeError "current")
          end)
       ∨ (Transaction.prev (List.last fetched t) ≠ 0
          ∧ ∃ e, fetch D (Meeting.id mtg)
                       (Transaction.prev (List.last fetched t)) = inl e
                 ∧ r = Raise (Remote e))).
Proof.
  intros Hdesc Hmtg Hstore Hprev.
  destruct (show_all_loop_spec mtg fuel t g Hdesc Hmtg Hprev)
    as (r & g1 & fetched & Hrun & Hst & Hcm & Hct & Hfol & Hr).
  unfold show_all_activate. rewrite Hstore, Hrun. rewrite Hstore in Hst.
  destruct r as [[]|e].
  - rewrite Hcm, Hct.
    destruct (current_transaction g) as [ct|]; simpl.
    + eexists _, _, fetched. split; [reflexivity|]. simpl.
      split; [exact Hst|]. split; [exact Hfol|]. left. auto.
    + eexists _, _, fetched. split; [reflexivity|].
      split; [exact Hst|]. split; [exact Hfol|]. left. auto.
  - destruct Hr as (Hnz & e' & Hf & ->).
    eexists _, _, fetched. split; [reflexivity|].
    split; [exact Hst|]. split; [exact Hfol|]. right. eauto.
Qed.

Lemma last_cons_default {A} (x d : A) (l : list A) :
  List.last (x :: l) d = List.last l x.
Proof.
  destruct l as [|a l]; [reflexivity|].
  change (List.last (x :: a :: l) d) with (List.last (a :: l) d).
  apply last_nonempty_default.
Qed.

(** In a chain of fetched transactions each one was fetched through the
    [prev] pointer of the one before it. *)
Lemma followed_step (mtg : Meeting.t) (f : list Transaction.t) :
  ∀ (t a : Transaction.t) (n : nat),
    followed D mtg t f →
    f !! n = Some a →
    Transaction.prev (List.last (take n f) t) ≠ 0
    ∧ fetch D (Meeting.id mtg) (Transaction.prev (List.last (take n f) t))
      = inr a.
Proof.
  induction f as [|x f IH]; intros t a n Hfol Hn; [discriminate|].
  destruct Hfol as (Hnz & Hf & Hfol). destruct n as [|n].
  - injection Hn as <-. simpl. auto.
  - cbn [take]. rewrite last_cons_default. apply IH; assumption.
Qed.

(** Two chains from the same transaction agree as far as both go. *)
Lemma followed_agree (mtg : Meeting.t) (f1 : list Transaction.t) :
  ∀ (t : Transaction.t) (f2 : list Transaction.t),
    followed D mtg t f1 →
    followed D mtg t f2 →
    (length f1 ≤ length f2)%nat →
    f1 = take (length f1) f2.
Proof.
  induction f1 as [|x f1 IH]; intros t f2 H1 H2 Hlen; [reflexivity|].
  destruct f2 as [|y f2]; [simpl in Hlen; lia|].
  destruct H1 as (_ & Hx & H1), H2 as (_ & Hy & H2).
  rewrite Hx in Hy. injection Hy as <-. simpl. f_equal.
  apply (IH x); [assumption..|]. simpl in Hlen. lia.
Qed.

(** The loop of [show_all_activate], whenever it comes to an end. *)
Lemma show_all_loop_inv (mtg : Meeting.t) (fuel : nat) :
  ∀ (trn : Transaction.t) (g g' : Gui) (r : Result unit),
    current_meeting (xdsc g) = Some mtg →
    show_all_loop D fuel trn g = Some (r, g') →
    ∃ fetched : list Transaction.t,
      trans_liststore (xdsc g') = rev fetched ++ trans_liststore (xdsc g)
      ∧ followed D mtg trn fetched
      ∧ (Transaction.prev (List.last fetched trn) = 0
         ∨ ∃ e, fetch D (Meeting.id mtg)
                      (Transaction.prev (List.last fetched trn)) = inl e).
Proof.
  induction fuel as [|fuel IH]; intros trn g g' r Hmtg Hrun.
  - simpl in Hrun.
    destruct (decide (Transaction.prev trn = 0)) as [Hz|]; [|discriminate].
    injection Hrun as _ <-. exists []. simpl. auto.
  - cbn [show_all_loop] in Hrun.
    destruct (decide (Transaction.prev trn = 0)) as [Hz|Hnz].
    { injection Hrun as _ <-. exists []. simpl. auto. }
    rewrite Hmtg in Hrun. unfold in_discuss, Meeting_get_transaction, rpc in Hrun.
    destruct (fetch D (Meeting.id mtg) (Transaction.prev trn)) as [e|trn'] eqn:Hf.
    { injection Hrun as _ <-. exists []. simpl. eauto. }
    cbn [update_status_label] in Hrun.
    apply IH in Hrun as (fetched & Hst & Hfol & Hstop); [|exact Hmtg].
    exists (trn' :: fetched). split.
    { rewrite Hst. simpl. rewrite <- app_assoc. reflexivity. }
    split. { simpl. auto. }
    rewrite last_cons_default. exact Hstop.
Qed.

(** X8: whatever [show_all_activate] has loaded when it ends,
    [load_more_transactions] loads the same rows from the same window
    as soon as it is asked for at least that many. *)
Theorem show_all_loads_what_load_more_loads (mtg : Meeting.t) (fuel : nat)
    (g g' : Gui) (r : Result unit) (t : Transaction.t)
    (rest : list Transaction.t) (num : Z) :
  current_meeting (xdsc g) = Some mtg →
  trans_liststore (xdsc g) = t :: rest →
  show_all_activate D fuel g = Some (r, g') →
  (length (trans_liststore (xdsc g')) ≤ length (t :: rest) + Z.to_nat num)%nat →
  trans_liststore (snd (load_more_transactions D num (xdsc g)))
  = trans_liststore (xdsc g').
Proof.
  intros Hmtg Hstore Hall Hnum.
  assert (Hloop : ∃ r0 g1, show_all_loop D fuel t g = Some (r0, g1)
                           ∧ trans_liststore (xdsc g')
                             = trans_liststore (xdsc g1)).
  { unfold show_all_activate in Hall. rewrite Hstore in Hall.
    destruct (show_all_loop D fuel t g) as [[[u|e] g1]|]; [| |discriminate].
    - exists (Ok u), g1. split; [reflexivity|].
      injection Hall as Hall. revert Hall.
      destruct (current_meeting (xdsc g1)) as [m1|];
        [destruct (current_transaction g1)|]; simpl;
        intros Hall; injection Hall as _ <-; reflexivity.
    - exists (Raise e), g1. split; [reflexivity|].
      injection Hall as _ <-. reflexivity. }
  destruct Hloop as (r0 & g1 & Hrun & Hsame).
  apply (show_all_loop_inv mtg) in Hrun as (f1 & Hst1 & Hfol1 & Hstop1);
    [|exact Hmtg].
  rewrite Hsame, Hst1, Hstore in *. clear Hsame Hst1.
  rewrite length_app, length_rev in Hnum.
  unfold load_more_transactions. rewrite Hstore.
  destruct (load_more_loop D (xrange 0 num 1) t (ui_debug (UiLoading num) (xdsc g)))
    as [r2 x2] eqn:Hrun2.
  apply (load_more_loop_spec D mtg) in Hrun2
    as (f2 & Hst2 & _ & Hlen2 & Hfol2 & Hr2); [|exact Hmtg].
  simpl in Hst2. rewrite Hstore in Hst2. simpl. rewrite Hst2.
  rewrite length_xrange_up in Hlen2, Hr2.
  replace (num - 0) with num in Hlen2, Hr2 by lia.
  f_equal. f_equal.
  destruct (Nat.lt_trichotomy (length f2) (length f1)) as [Hlt|[Heq|Hgt]].
  - exfalso.
    assert (Hpre : f2 = take (length f2) f1).
    { apply (followed_agree mtg f2 t f1); [assumption..|lia]. }
    destruct (lookup_lt_is_Some_2 f1 (length f2) Hlt) as [a Ha].
    destruct (followed_step mtg f1 t a (length f2) Hfol1 Ha) as [Hnz Hf].
    rewrite <- Hpre in Hnz, Hf.
    destruct r2 as [u|e].
    + apply Hnz, Hr2. simpl in Hnum. lia.
    + destruct Hr2 as (_ & e' & Hf' & _). congruence.
  - assert (Hpre : f2 = take (length f2) f1).
    { apply (followed_agree mtg f2 t f1); [assumption..|lia]. }
    rewrite Heq, firstn_all in Hpre. exact Hpre.
  - exfalso.
    assert (Hpre : f1 = take (length f1) f2).
    { apply (followed_agree mtg f1 t f2); [assumption..|lia]. }
    destruct (lookup_lt_is_Some_2 f2 (length f1) Hgt) as [a Ha].
    destruct (followed_step mtg f2 t a (length f1) Hfol2 Ha) as [Hnz Hf].
    rewrite <- Hpre in Hnz, Hf.
    destruct Hstop1 as [Hz|[e He]]; congruence.
Qed.

(** [meeting_has_changed] comes to [has_changed_answer] of the registry
    it runs on, which it leaves alone. *)
Lemma meeting_has_changed_answer (m : Meeting.t) (s : State) :
  fst (meeting_has_changed D m s) = has_changed_answer D (rcfile s) m
  ∧ rcfile (snd (meeting_has_changed D m s)) = rcfile s.
Proof.
  unfold meeting_has_changed, bind, _last_read_transaction, has_changed_answer.
  destruct (lookup_name (rcfile s) (inl (Meeting.long_name m))) as [loc|];
    [|auto].
  destruct (entries (rcfile s) !! loc) as [entry|]; [|auto].
  unfold Meeting_check_update, rpc.
  destruct (check_update D (Meeting.id m) (Entry.last_transaction entry)); auto.
Qed.

(** The walk over the rows still ahead: the rows passed over all
    answered "not changed"; the walk stops at the first row that
    answers "changed" or whose probe raises. *)
Lemma find_unread_loop_spec (rows : list (nat * (string * Meeting.t))) :
  ∀ s : State,
    rcfile (snd (find_unread_loop D rows s)) = rcfile s
    ∧ ∃ pre,
        Forall (fun row => has_changed_answer D (rcfile s) (snd (snd row))
                           = Ok false) pre
        ∧ match fst (find_unread_loop D rows s) with
          | Ok None => rows = pre
          | Ok (Some path) =>
              ∃ markup mtg post,
                rows = pre ++ (path, (markup, mtg)) :: post
                ∧ has_changed_answer D (rcfile s) mtg = Ok true
          | Raise e =>
              ∃ path markup mtg post,
                rows = pre ++ (path, (markup, mtg)) :: post
                ∧ has_changed_answer D (rcfile s) mtg = Raise e
          end.
Proof.
  induction rows as [|[path [markup mtg]] rows IH]; intros s.
  - simpl. split; [reflexivity|]. exists []. split; [constructor|reflexivity].
  - cbn [find_unread_loop]. unfold bind.
    destruct (meeting_has_changed_answer mtg s) as [Hans Hrc].
    destruct (meeting_has_changed D mtg s) as [r s1]. simpl in Hans, Hrc.
    destruct r as [[|]|e].
    + simpl. split; [exact Hrc|]. exists []. split; [constructor|].
      exists markup, mtg, rows. auto.
    + destruct (IH s1) as [Hrc1 (pre & Hpre & Hres)].
      rewrite Hrc in Hrc1, Hpre, Hres. split; [exact Hrc1|].
      exists ((path, (markup, mtg)) :: pre). split.
      { constructor; [simpl; symmetry; exact Hans|exact Hpre]. }
      destruct (fst (find_unread_loop D rows s1)) as [[j|]|e].
      * destruct Hres as (mk & m' & post & -> & Ht). exists mk, m', post. auto.
      * rewrite Hres. reflexivity.
      * destruct Hres as (j & mk & m' & post & -> & Ht).
        exists j, mk, m', post. auto.
    + simpl. split; [exact Hrc|]. exists []. split; [constructor|].
      exists path, markup, mtg, rows. auto.
Qed.

Lemma rows_after_lookup {A} (model : list A) (it p : nat) :
  rows_after model it !! p = (fun a => ((S it + p)%nat, a)) <$> model !! (S it + p)%nat.
Proof. unfold rows_after. rewrite lookup_drop, list_lookup_imap. reflexivity. Qed.

Lemma rows_before_lookup {A} (model : list A) (it p : nat) :
  (it ≤ length model)%nat → (p < it)%nat →
  rows_before model it !! p
  = (fun a => ((it - S p)%nat, a)) <$> model !! (it - S p)%nat.
Proof.
  intros Hit Hp. unfold rows_before.
  assert (Hlen : length (take it (imap pair model)) = it).
  { rewrite length_take, length_imap. lia. }
  rewrite reverse_lookup by (rewrite Hlen; exact Hp).
  rewrite Hlen, lookup_take_lt by lia. rewrite list_lookup_imap. reflexivity.
Qed.

Lemma rows_before_length {A} (model : list A) (it : nat) :
  (it ≤ length model)%nat → length (rows_before model it) = it.
Proof.
  intros Hit. unfold rows_before.
  rewrite length_reverse, length_take, length_imap. lia.
Qed.

(** The rows of a walk, given as positions [idx 0], [idx 1], ... of
    the model, against the outcome of the walk. *)
Lemma walk_positions (rc : RCFile) (ls : list (string * Meeting.t))
    (rows : list (nat * (string * Meeting.t))) (idx : nat → nat) :
  (∀ p, (p < length rows)%nat →
        rows !! p = (fun a => (idx p, a)) <$> ls !! idx p) →
  ∀ pre,
    Forall (fun row => has_changed_answer D rc (snd (snd row)) = Ok false) pre →
    (rows = pre →
     ∀ p, (p < length rows)%nat → row_answer D rc ls (idx p) (Ok false))
    ∧ (∀ j markup mtg post,
         rows = pre ++ (j, (markup, mtg)) :: post →
         j = idx (length pre)
         ∧ (length pre < length rows)%nat
         ∧ ls !! j = Some (markup, mtg)
         ∧ ∀ p, (p < length pre)%nat → row_answer D rc ls (idx p) (Ok false)).
Proof.
  intros Hrows pre Hpre.
  assert (Hquiet : ∀ p, (p < length pre)%nat → (p < length rows)%nat →
                        rows !! p = pre !! p →
                        row_answer D rc ls (idx p) (Ok false)).
  { intros p Hp Hp' Heq.
    destruct (lookup_lt_is_Some_2 pre p Hp) as [[j [mk m]] Hrow].
    rewrite Forall_lookup in Hpre. specialize (Hpre _ _ Hrow). simpl in Hpre.
    rewrite Hrows, Hrow in Heq by exact Hp'.
    destruct (ls !! idx p) as [[mk' m']|] eqn:Hls; [|discriminate].
    injection Heq as _ <- <-. exists mk', m'. auto. }
  split.
  - intros -> p Hp. apply Hquiet; auto.
  - intros j mk m post ->.
    assert (Hlen : (length pre < length (pre ++ (j, (mk, m)) :: post))%nat).
    { rewrite length_app. simpl. lia. }
    pose proof (Hrows _ Hlen) as Hj. rewrite list_lookup_middle in Hj by reflexivity.
    destruct (ls !! idx (length pre)) as [[mk' m']|] eqn:Hls; [|discriminate].
    injection Hj as -> -> ->.
    split; [reflexivity|]. split; [exact Hlen|]. split; [exact Hls|].
    intros p Hp. apply Hquiet; [exact Hp|lia|].
    apply lookup_app_l. exact Hp.
Qed.

(** X9: from a valid starting row (a given path, or the first row when
    none is given and the walk goes forward), [_find_unread_meetings]
    returns the nearest row strictly beyond the start, in the direction
    of the walk, whose meeting has unread transactions: every row
    between the start and the result answered "nothing new", and the
    starting row itself is never examined.  A probe that raises ends the
    walk with its error; when no row beyond the start has anything new
    the result is [None].  Neither the registry nor the list is
    changed. *)
Theorem find_unread_meetings_nearest (backwards : bool)
    (start_path : option nat) (start : nat) (g : Gui) :
  (start < length (meeting_liststore g))%nat →
  (start_path = Some start
   ∨ (start_path = None ∧ backwards = false ∧ start = 0%nat)) →
  let out := _find_unread_meetings D backwards start_path g in
  let rc := rcfile (discuss (xdsc g)) in
  let ls := meeting_liststore g in
  let ahead k := if backwards then (k < start)%nat
                 else (start < k < length ls)%nat in
  let nearer k j := if backwards then (j < k)%nat else (k < j)%nat in
  rcfile (discuss (xdsc (snd out))) = rc
  ∧ meeting_liststore (snd out) = ls
  ∧ match fst out with
    | Ok (Some j) =>
        ahead j ∧ row_answer D rc ls j (Ok true)
        ∧ ∀ k, ahead k → nearer k j → row_answer D rc ls k (Ok false)
    | Ok None => ∀ k, ahead k → row_answer D rc ls k (Ok false)
    | Raise e =>
        ∃ j, ahead j ∧ row_answer D rc ls j (Raise e)
             ∧ ∀ k, ahead k → nearer k j → row_answer D rc ls k (Ok false)
    end.
Proof.
  intros Hstart Hpath. cbv zeta.
  set (ls := meeting_liststore g) in *.
  set (rows := if backwards then rows_before ls start else rows_after ls start).
  assert (Hout : _find_unread_meetings D backwards start_path g
                 = in_discuss (find_unread_loop D rows) g).
  { unfold _find_unread_meetings. fold ls.
    destruct Hpath as [->|(-> & -> & ->)].
    - unfold get_iter. apply Nat.ltb_lt in Hstart. rewrite Hstart. reflexivity.
    - unfold get_iter_first. destruct ls; [simpl in Hstart; lia|reflexivity]. }
  rewrite Hout. unfold in_discuss.
  destruct (find_unread_loop_spec rows (discuss (xdsc g)))
    as [Hrc (pre & Hpre & Hres)].
  destruct (find_unread_loop D rows (discuss (xdsc g))) as [r d].
  simpl in Hrc, Hres |- *. split; [exact Hrc|]. split; [reflexivity|].
  set (idx := fun p => if backwards then (start - S p)%nat else (S start + p)%nat).
  assert (Hlenrows : length rows = if backwards then start
                                   else (length ls - S start)%nat).
  { subst rows. destruct backwards.
    - apply rows_before_length. lia.
    - unfold rows_after. rewrite length_drop, length_imap. reflexivity. }
  assert (Hrows : ∀ p, (p < length rows)%nat →
                       rows !! p = (fun a => (idx p, a)) <$> ls !! idx p).
  { intros p Hp. rewrite Hlenrows in Hp. subst rows idx. destruct backwards.
    - apply rows_before_lookup; lia.
    - apply rows_after_lookup. }
  destruct (walk_positions (rcfile (discuss (xdsc g))) ls rows idx Hrows pre Hpre)
    as [Hnone Hstop].
  assert (Hahead : ∀ k, (if backwards then (k < start)%nat
                         else (start < k < length ls)%nat) →
                        ∃ p, (p < length rows)%nat ∧ idx p = k).
  { intros k Hk. rewrite Hlenrows. subst idx. destruct backwards.
    - exists (start - S k)%nat. simpl. lia.
    - exists (k - S start)%nat. simpl. lia. }
  assert (Hidx : ∀ p, (p < length rows)%nat →
                      if backwards then (idx p < start)%nat
                      else (start < idx p < length ls)%nat).
  { intros p Hp. rewrite Hlenrows in Hp. subst idx. destruct backwards; simpl; lia. }
  assert (Hnear : ∀ p q, (p < length rows)%nat → (q < length rows)%nat →
                         (if backwards then (idx q < idx p)%nat
                          else (idx p < idx q)%nat) → (p < q)%nat).
  { intros p q Hp Hq. rewrite Hlenrows in Hp, Hq. subst idx.
    destruct backwards; simpl; lia. }
  destruct r as [[j|]|e].
  - destruct Hres as (mk & m & post & Hsplit & Htrue).
    destruct (Hstop _ _ _ _ Hsplit) as (-> & Hlen & Hls & Hquiet).
    split; [apply Hidx; exact Hlen|]. split; [exists mk, m; auto|].
    intros k Hk Hkj. destruct (Hahead k Hk) as (p & Hp & <-).
    apply Hquiet. apply Hnear; assumption.
  - intros k Hk. destruct (Hahead k Hk) as (p & Hp & <-).
    apply Hnone; assumption.
  - destruct Hres as (j & mk & m & post & Hsplit & Herr).
    destruct (Hstop _ _ _ _ Hsplit) as (-> & Hlen & Hls & Hquiet).
    exists (idx (length pre)).
    split; [apply Hidx; exact Hlen|]. split; [exists mk, m; auto|].
    intros k Hk Hkj. destruct (Hahead k Hk) as (p & Hp & <-).
    apply Hquiet. apply Hnear; assumption.
Qed.

(** X10: walking backward with no starting path can never find a
    meeting.  The helper that should give the iterator of the last row
    returns nothing, so the first step of the walk raises; on an empty
    list any walk without starting path raises as well.  No probe is
    sent and nothing changes. *)
Theorem find_unread_meetings_without_start (backwards : bool) (g : Gui) :
  backwards = true ∨ meeting_liststore g = [] →
  ∃ e, _find_unread_meetings D backwards None g = (Raise e, g).
Proof.
  intros Hcase. unfold _find_unread_meetings, gtk_tree_model_get_iter_last.
  destruct backwards.
  - destruct (get_iter _ _); eauto.
  - destruct Hcase as [Hb|Hempty]; [discriminate|]. rewrite Hempty. simpl. eauto.
Qed.

End XdscMoreProperties.

(** X11: the font size keys keep the size between 6 and 16 points.
    When the size in points ([size // SCALE]) is within 6 to 16, it is
    so after any key; a key changes the size by exactly one point or not
    at all, and the bell rings only when the size is left as it was. *)
Theorem font_size_stays_in_bounds (SCALE : Z) (control : bool) (keyval : Key)
    (size : Z) :
  0 < SCALE →
  6 ≤ size / SCALE ≤ 16 →
  let size' := fst (font_size_keypress_event SCALE control keyval size) in
  let bell := snd (font_size_keypress_event SCALE control keyval size) in
  6 ≤ size' / SCALE ≤ 16
  ∧ (size' = size ∨ size' = size + SCALE ∨ size' = size - SCALE)
  ∧ (bell = true → size' = size).
Proof.
  intros Hs Hb. cbv zeta. unfold font_size_keypress_event.
  assert (Hup : (size + SCALE) / SCALE = size / SCALE + 1).
  { replace (size + SCALE) with (size + 1 * SCALE) by lia.
    apply Z.div_add. lia. }
  assert (Hdown : (size - SCALE) / SCALE = size / SCALE - 1).
  { replace (size - SCALE) with (size + (-1) * SCALE) by lia.
    rewrite Z.div_add by lia. lia. }
  destruct control; [|simpl; auto].
  destruct keyval.
  - destruct (Z.leb_spec 16 (size / SCALE)); simpl; [auto|].
    rewrite Hup. split; [lia|]. split; [auto|discriminate].
  - destruct (Z.leb_spec 16 (size / SCALE)); simpl; [auto|].
    rewrite Hup. split; [lia|]. split; [auto|discriminate].
  - destruct (Z.leb_spec (size / SCALE) 6); simpl; [auto|].
    rewrite Hdown. split; [lia|]. split; [auto|discriminate].
  - destruct (Z.leb_spec (size / SCALE) 6); simpl; [auto|].
    rewrite Hdown. split; [lia|]. split; [auto|discriminate].
  - simpl. auto.
Qed.

(** ** The further properties on the sample service *)

Lemma sample_descending : descending Sample.service Sample.meeting0.
Proof.
  intros n trn Hf. simpl in Hf.
  destruct ((n <? 1) || (20 <? n)) eqn:E1; [discriminate|].
  destruct ((n <? 5) || ((10 <=? n) && (n <=? 12))) eqn:E2; [discriminate|].
  injection Hf as <-. simpl. split; [reflexivity|].
  apply orb_false_iff in E1, E2.
  destruct (Z.eqb_spec n 5); [lia|]. destruct (Z.eqb_spec n 13); lia.
Qed.



Lemma viewing_moves_the_unread_probe_witness :
  let s := Sample.fresh (Sample.registry 9) in
  let s' := snd (get_transaction Sample.service Sample.meeting0 13 true s) in
  registered (rcfile s) Sample.meeting0
  ∧ get_transaction Sample.service Sample.meeting0 13 true s
    = (Ok (Sample.trn 13), s')
  ∧ meeting_has_changed Sample.service Sample.meeting0 s'
    = (Ok true, with_rpc_log (fun l => l ++ [RpcCheckUpdate Sample.loc0 13]) s').
Proof.
  intros s s'. split; [apply sample_registered|]. split; [reflexivity|].
  exact (viewing_moves_the_unread_probe Sample.service Sample.meeting0 13 s s'
           (Sample.trn 13) (sample_registered 9) eq_refl).
Defined.

Lemma find_next_valid_outside_numbering_witness :
  let s := Sample.fresh (Sample.registry 25) in
  let out := find_next_valid_transaction Sample.service Sample.meeting0 true s in
  cursor_is (rcfile s) Sample.meeting0 25
  ∧ (Meeting.first Sample.meeting0 < 25 ∧ Meeting.highest Sample.meeting0 < 25 - 1)
  ∧ fst out = Raise ValueError
  ∧ rcfile (snd out) = rcfile s
  ∧ rpc_log (snd out) = rpc_log s.
Proof.
  intros s out. split; [apply sample_cursor|].
  split; [simpl; lia|].
  apply (find_next_valid_outside_numbering Sample.service Sample.meeting0 true
           s 25 (sample_cursor 25)).
  simpl. lia.
Defined.

Lemma get_meeting_retry_keeps_connection_witness :
  let s := Sample.fresh Sample.registry3 in
  let e := Remote (DiscussError NO_SUCH_MTG) in
  let s1 := snd (get_meeting Sample.service (inl "old"%string) s) in
  lookup_name (rcfile s) (inl "old"%string) = Some Sample.loc2
  ∧ meetingcache s !! Sample.loc2 = None
  ∧ connect Sample.service (fst Sample.loc2) = None
  ∧ get_meeting Sample.service (inl "old"%string) s = (Raise e, s1)
  ∧ is_Some (connectioncache s1 !! fst Sample.loc2)
  ∧ meetingcache s1 = meetingcache s
  ∧ let again := get_meeting Sample.service (inl "old"%string) s1 in
    fst again = Raise e
    ∧ clients (snd again) = clients s1
    ∧ ∃ sent, rpc_log (snd again) = rpc_log s1 ++ sent
              ∧ ¬ In (RpcConnect (fst Sample.loc2)) sent.
Proof.
  intros s e s1. split; [reflexivity|]. split; [reflexivity|].
  split; [reflexivity|]. split; [reflexivity|].
  exact (get_meeting_retry_keeps_connection Sample.service (inl "old"%string)
           Sample.loc2 s s1 e eq_refl eq_refl eq_refl eq_refl).
Defined.



Lemma show_all_activate_completes_witness :
  let g := SampleGui.gui in
  let t := Sample.trn 15 in
  let rest := [Sample.trn 16] in
  let mtg := Sample.meeting0 in
  descending Sample.service mtg
  ∧ current_meeting (xdsc g) = Some mtg
  ∧ trans_liststore (xdsc g) = t :: rest
  ∧ 0 ≤ Transaction.prev t ≤ Z.of_nat 14
  ∧ ∃ (r : Result unit) (g' : Gui) (fetched : list Transaction.t),
      show_all_activate Sample.service 14 g = Some (r, g')
      ∧ trans_liststore (xdsc g') = rev fetched ++ t :: rest
      ∧ followed Sample.service mtg t fetched
      ∧ ((Transaction.prev (List.last fetched t) = 0
          ∧ match current_transaction g with
            | Some ct =>
                r = Ok tt
                ∧ status_label g' =
                  Some (Reading (Meeting.long_name mtg) (Meeting.first mtg)
                                (Meeting.last mtg)
                                (Some (Transaction.current ct)))
            | None => r = Raise (AttributeError "current")
            end)
         ∨ (Transaction.prev (List.last fetched t) ≠ 0
            ∧ ∃ e, fetch Sample.service (Meeting.id mtg)
                         (Transaction.prev (List.last fetched t)) = inl e
                   ∧ r = Raise (Remote e))).
Proof.
  intros g t rest mtg. split; [exact sample_descending|].
  split; [reflexivity|]. split; [reflexivity|]. split; [simpl; lia|].
  apply (show_all_activate_completes Sample.service mtg 14 g t rest
           sample_descending eq_refl eq_refl).
  simpl. lia.
Defined.

Lemma show_all_loads_what_load_more_loads_witness :
  let g := SampleGui.gui in
  let r := fst SampleGui.gui_shown in
  let g' := snd SampleGui.gui_shown in
  current_meeting (xdsc g) = Some Sample.meeting0
  ∧ trans_liststore (xdsc g) = Sample.trn 15 :: [Sample.trn 16]
  ∧ show_all_activate Sample.service 14 g = Some (r, g')
  ∧ (length (trans_liststore (xdsc g'))
     ≤ length (Sample.trn 15 :: [Sample.trn 16]) + Z.to_nat 100)%nat
  ∧ trans_liststore (snd (load_more_transactions Sample.service 100 (xdsc g)))
    = trans_liststore (xdsc g').
Proof.
  intros g r g'.
  assert (Hrun : show_all_activate Sample.service 14 g = Some (r, g'))
    by (vm_compute; reflexivity).
  assert (Hlen : (length (trans_liststore (xdsc g'))
                  ≤ length (Sample.trn 15 :: [Sample.trn 16]) + Z.to_nat 100)%nat)
    by (vm_compute; lia).
  split; [reflexivity|]. split; [reflexivity|]. split; [exact Hrun|].
  split; [exact Hlen|].
  exact (show_all_loads_what_load_more_loads Sample.service Sample.meeting0 14
           g g' r (Sample.trn 15) [Sample.trn 16] 100 eq_refl eq_refl Hrun Hlen).
Defined.

Lemma find_unread_meetings_nearest_witness :
  let g := SampleGui.gui in
  let out := _find_unread_meetings Sample.service false (Some 0%nat) g in
  let rc := rcfile (discuss (xdsc g)) in
  let ls := meeting_liststore g in
  (0 < length ls)%nat
  ∧ (Some 0%nat = Some 0%nat
     ∨ (Some 0%nat = None ∧ false = false ∧ 0%nat = 0%nat))
  ∧ fst out = Ok (Some 2%nat)
  ∧ rcfile (discuss (xdsc (snd out))) = rc
  ∧ meeting_liststore (snd out) = ls
  ∧ (0 < 2 < length ls)%nat
  ∧ row_answer Sample.service rc ls 2 (Ok true)
  ∧ ∀ k, (0 < k < length ls)%nat → (k < 2)%nat →
         row_answer Sample.service rc ls k (Ok false).
Proof.
  intros g out rc ls.
  assert (Hlen : (0 < length ls)%nat) by (simpl; lia).
  assert (Hfound : fst out = Ok (Some 2%nat)) by (vm_compute; reflexivity).
  split; [exact Hlen|]. split; [left; reflexivity|]. split; [exact Hfound|].
  pose proof (find_unread_meetings_nearest Sample.service false (Some 0%nat)
                0%nat g Hlen (or_introl eq_refl)) as H.
  cbv zeta in H. fold out in H. rewrite Hfound in H.
  exact H.
Defined.

Lemma find_unread_meetings_without_start_witness :
  (true = true ∨ meeting_liststore SampleGui.gui = [])
  ∧ ∃ e, _find_unread_meetings Sample.service true None SampleGui.gui
         = (Raise e, SampleGui.gui).
Proof.
  split; [left; reflexivity|].
  exact (find_unread_meetings_without_start Sample.service true SampleGui.gui
           (or_introl eq_refl)).
Defined.

Lemma font_size_stays_in_bounds_witness :
  let size' := fst (font_size_keypress_event 1024 true KEY_plus 16384) in
  let bell := snd (font_size_keypress_event 1024 true KEY_plus 16384) in
  0 < 1024
  ∧ 6 ≤ 16384 / 1024 ≤ 16
  ∧ 6 ≤ size' / 1024 ≤ 16
  ∧ (size' = 16384 ∨ size' = 16384 + 1024 ∨ size' = 16384 - 1024)
  ∧ (bell = true → size' = 16384).
Proof.
  intros size' bell. split; [lia|].
  assert (Hpt : 6 ≤ 16384 / 1024 ≤ 16) by (vm_compute; split; discriminate).
  split; [exact Hpt|].
  exact (font_size_stays_in_bounds 1024 true KEY_plus 16384 eq_refl Hpt).
Defined.
